(** * Order interpreter of lia2.0: parser, resolver and matcher

    A shallow embedding of [app/utils/text.py], [app/services/interpreter/parser.py],
    [app/services/interpreter/resolver.py], [app/services/interpreter/matcher.py]
    and of the pydantic models of [app/core/schemas.py] that the matcher builds.

    - A Python [str] is a list of Unicode code points ([N]).
    - A Python [float] is an exact rational ([Q]); the only float arithmetic
      of the program is the confidence formula and the score scaling. The
      confidence formula is evaluated in binary64 as well, for the counts up
      to 5000.
    - A [Decimal] price is an exact rational as well.
    - Exceptions are values of [result].
    - The libraries the program calls but does not contain (the Unicode
      character database, Unidecode's table, rapidfuzz's scorer, the float
      parser) are fields of [externals]; every definition that depends on
      them takes them as a section variable. *)

From Stdlib Require Uint63.
From Stdlib Require Import PrimFloat.
From Stdlib Require Import List ZArith NArith QArith Qminmax Lqa String Ascii Lia Bool.
From Stdlib Require Import Sorted.
From stdpp Require Import base gmap list.
Import ListNotations.

Set Default Proof Using "Type".

(** ** Python values *)

Definition str := list N.

Inductive exn :=
| ValueError
| OverflowError
| ValidationError.

Inductive result (A : Type) :=
| Ok (a : A)
| Raise (e : exn).
Arguments Ok {A} a.
Arguments Raise {A} e.

Definition rbind {A B} (m : result A) (f : A -> result B) : result B :=
  match m with
  | Ok a => f a
  | Raise e => Raise e
  end.

Notation "'let*' x ':=' m 'in' f" := (rbind m (fun x => f))
  (at level 10, x name, m at level 100, f at level 200).

(** Source literals are written as UTF-8 text and decoded to code points. *)
Fixpoint utf8_decode (bs : list N) : str :=
  match bs with
  | [] => []
  | b :: t =>
      if (b <? 0x80)%N then b :: utf8_decode t
      else
        match t with
        | [] => [b]
        | b1 :: t1 =>
            if (b <? 0xE0)%N then
              N.lor (N.shiftl (N.land b 0x1F) 6) (N.land b1 0x3F) :: utf8_decode t1
            else
              match t1 with
              | [] => [b]
              | b2 :: t2 =>
                  if (b <? 0xF0)%N then
                    N.lor (N.shiftl (N.land b 0x0F) 12)
                      (N.lor (N.shiftl (N.land b1 0x3F) 6) (N.land b2 0x3F))
                      :: utf8_decode t2
                  else
                    match t2 with
                    | [] => [b]
                    | b3 :: t3 =>
                        N.lor (N.shiftl (N.land b 0x07) 18)
                          (N.lor (N.shiftl (N.land b1 0x3F) 12)
                             (N.lor (N.shiftl (N.land b2 0x3F) 6) (N.land b3 0x3F)))
                          :: utf8_decode t3
                    end
              end
        end
  end.

Definition py (s : string) : str :=
  utf8_decode (map N_of_ascii (list_ascii_of_string s)).

Definition str_eqb (a b : str) : bool := bool_decide (a = b).

Definition in_range (lo hi c : N) : bool := ((lo <=? c) && (c <=? hi))%N.

(** ** What the program takes from its libraries *)

Record externals := {
(** [str.isalnum] for code points above U+00FF (for the regex class \w). *)
uni_alnum : N -> bool;
(** decimal digit value of the code points above U+00FF of category Nd
    (for the regex class \d and for [int]). *)
uni_decimal : N -> option N;
(** simple lowercase mapping above U+00FF (for re.IGNORECASE). *)
uni_lower : N -> N;
(** Unidecode's transliteration of a code point above U+007F. *)
unidecode_table : N -> str;
(** The score, between 0 and 100, that rapidfuzz's process functions
      give to a query and a choice with the scorer fuzz.WRatio. *)
wratio : str -> str -> Q;
(** [int(float(text))]: a value, ValueError or OverflowError. *)
int_of_float : str -> result Z
}.

(** ** Python's str methods *)

(** [str.isspace] of one code point; also the regex class \s. *)
Definition is_space (c : N) : bool :=
  in_range 0x09 0x0D c || in_range 0x1C 0x20 c || (c =? 0x85)%N || (c =? 0xA0)%N
  || (c =? 0x1680)%N || in_range 0x2000 0x200A c || (c =? 0x2028)%N
  || (c =? 0x2029)%N || (c =? 0x202F)%N || (c =? 0x205F)%N || (c =? 0x3000)%N.

Definition mem (c : N) (cs : str) : bool := existsb (N.eqb c) cs.

Fixpoint lstrip_by (p : N -> bool) (s : str) : str :=
  match s with
  | c :: s' => if p c then lstrip_by p s' else s
  | [] => []
  end.

Definition rstrip_by (p : N -> bool) (s : str) : str :=
  rev (lstrip_by p (rev s)).

Definition strip_by (p : N -> bool) (s : str) : str :=
  rstrip_by p (lstrip_by p s).

(** [s.strip()] *)
Definition strip (s : str) : str := strip_by is_space s.

(** [s.strip(chars)] *)
Definition strip_chars (chars : str) (s : str) : str :=
  strip_by (fun c => mem c chars) s.

(** [s.split()]: the maximal runs of non-whitespace; [cur] is the run being
    read, most recent character first. *)
Fixpoint split_ws_aux (cur : str) (s : str) : list str :=
  match s with
  | [] => match cur with [] => [] | _ => [rev cur] end
  | c :: s' =>
      if is_space c then
        match cur with
        | [] => split_ws_aux [] s'
        | _ => rev cur :: split_ws_aux [] s'
        end
      else split_ws_aux (c :: cur) s'
  end.

Definition split_ws (s : str) : list str := split_ws_aux [] s.

(** [sep.join(parts)] *)
Fixpoint join (sep : str) (parts : list str) : str :=
  match parts with
  | [] => []
  | [p] => p
  | p :: rest => p ++ sep ++ join sep rest
  end.

(** The line boundaries of [str.splitlines]. *)
Definition is_linebreak (c : N) : bool :=
  in_range 0x0A 0x0D c || in_range 0x1C 0x1E c || (c =? 0x85)%N
  || (c =? 0x2028)%N || (c =? 0x2029)%N.

(** [s.splitlines()]: a carriage return followed by a line feed is one
    boundary; there is no empty last line. *)
Fixpoint splitlines_aux (cur : str) (s : str) : list str :=
  match s with
  | [] => match cur with [] => [] | _ => [rev cur] end
  | c :: s' =>
      if is_linebreak c then
        match s' with
        | d :: s'' =>
            if ((c =? 0x0D) && (d =? 0x0A))%N
            then rev cur :: splitlines_aux [] s''
            else rev cur :: splitlines_aux [] s'
        | [] => rev cur :: splitlines_aux [] s'
        end
      else splitlines_aux (c :: cur) s'
  end.

Definition splitlines (s : str) : list str := splitlines_aux [] s.

Fixpoint prefix_b (p s : str) : bool :=
  match p, s with
  | [], _ => true
  | a :: p', b :: s' => (a =? b)%N && prefix_b p' s'
  | _ :: _, [] => false
  end.

(** [sub in s] *)
Fixpoint contains (sub s : str) : bool :=
  prefix_b sub s ||
  match s with
  | [] => false
  | _ :: s' => contains sub s'
  end.

(** [s.replace(old, new)] for a non-empty [old] (every call of the program
    has one): occurrences are replaced left to right without overlap;
    [skip] counts the characters of the occurrence still to be passed. *)
Fixpoint replace_aux (old new : str) (skip : nat) (s : str) : str :=
  match skip with
  | S k =>
      match s with
      | _ :: s' => replace_aux old new k s'
      | [] => []
      end
  | O =>
      match s with
      | [] => []
      | c :: s' =>
          if prefix_b old s
          then new ++ replace_aux old new (length old - 1) s'
          else c :: replace_aux old new 0 s'
      end
  end.

Definition replace (old new s : str) : str :=
  match old with
  | [] => s
  | _ => replace_aux old new 0 s
  end.

(** [s[a:b]] for [0 <= a <= b]. *)
Definition slice (a b : nat) (s : str) : str := take (b - a) (drop a s).

(** [s.lower()] on ASCII text; the program lowers only Unidecode's output. *)
Definition ascii_lower_char (c : N) : N :=
  if in_range 0x41 0x5A c then (c + 32)%N else c.

Definition lower (s : str) : str := map ascii_lower_char s.

(** [len(s)] as an integer. *)
Definition len (s : str) : Z := Z.of_nat (length s).

(** ** Unicode character properties *)

Section Unicode.
Variable E : externals.

(** [str.isalnum] of one code point: exact on Basic Latin and Latin-1. *)
Definition is_alnum (c : N) : bool :=
  if (c <? 0x80)%N then
    in_range 0x30 0x39 c || in_range 0x41 0x5A c || in_range 0x61 0x7A c
  else if (c <? 0x100)%N then
    (c =? 0xAA)%N || (c =? 0xB2)%N || (c =? 0xB3)%N || (c =? 0xB5)%N
    || (c =? 0xB9)%N || (c =? 0xBA)%N || in_range 0xBC 0xBE c
    || in_range 0xC0 0xD6 c || in_range 0xD8 0xF6 c || in_range 0xF8 0xFF c
  else uni_alnum E c.

(** The regex class \w. *)
Definition is_word (c : N) : bool := is_alnum c || (c =? 0x5F)%N.

(** The value of a decimal digit (category Nd), the regex class \d. *)
Definition digit_value (c : N) : option N :=
  if in_range 0x30 0x39 c then Some (c - 0x30)%N
  else if (c <? 0x100)%N then None
  else uni_decimal E c.

Definition is_digit (c : N) : bool :=
  match digit_value c with Some _ => true | None => false end.

(** The simple lowercase mapping re.IGNORECASE folds with. *)
Definition lower_simple (c : N) : N :=
  if in_range 0x41 0x5A c then (c + 32)%N
  else if (c <? 0xC0)%N then c
  else if (c <? 0x100)%N then
    if in_range 0xC0 0xDE c && negb (c =? 0xD7)%N then (c + 32)%N else c
  else uni_lower E c.

(** Whether a pattern character has case. No pattern of the program has a
    character above U+00FF. *)
Definition is_cased (p : N) : bool :=
  in_range 0x41 0x5A p || in_range 0x61 0x7A p || (p =? 0xB5)%N
  || (in_range 0xC0 0xFF p && negb (p =? 0xD7)%N && negb (p =? 0xF7)%N).

(** The extra characters that fold to a lowercase pattern character
    without being its lowercase (sre's equivalence table, restricted to
    the Latin-1 pattern characters). *)
Definition case_fixes (lo : N) : list N :=
  if (lo =? 0x69)%N then [0x131%N]
  else if (lo =? 0x73)%N then [0x17F%N]
  else if (lo =? 0xB5)%N then [0x3BC%N]
  else [].

(** A pattern character [p] against a text character [c]. *)
Definition chr_match (ic : bool) (p c : N) : bool :=
  if ic && is_cased p then
    let lo := lower_simple p in
    let lc := lower_simple c in
    (lc =? lo)%N || mem lc (case_fixes lo)
  else (c =? p)%N.

(** [int(s)] for a run of decimal digits, which is all a \d+ captures.
    CPython's configurable limit on the number of digits is not modelled. *)
Definition int_of_digits (s : str) : Z :=
  fold_left
    (fun acc c => (acc * 10 + Z.of_N (default 0%N (digit_value c)))%Z) s 0%Z.

(** ** Unidecode *)

(** ASCII passes through; every other code point is replaced by its table
    entry, which is ASCII text. *)
Definition unidecode_char (c : N) : str :=
  if (c <? 0x80)%N then [c]
  else filter (fun d => (d <? 0x80)%N) (unidecode_table E c).

Definition unidecode (s : str) : str := flat_map unidecode_char s.
End Unicode.

(** ** Python's re, for the constructs the program's patterns use *)

(** One item of a bracketed set. *)
Inductive citem :=
| CChr (c : N)
| CRange (lo hi : N)
| CSpace
| CDigit.

(** What matches one character. *)
Inductive atom :=
| AChr (c : N)
| ASet (neg : bool) (items : list citem)
| AAny.

(** Every repetition in the program's patterns is over one character;
    optional parts are groups. *)
Inductive regex :=
| Eps
| One (a : atom)
| Lit (w : str)
| Rep (a : atom) (lo : nat) (hi : option nat) (greedy : bool)
| Seq (r1 r2 : regex)
| Alt (r1 r2 : regex)
| Opt (r : regex)
| Grp (n : nat) (r : regex)
| Bol
| Eol
| Wordb
| Ahead (r : regex).

Fixpoint seqs (rs : list regex) : regex :=
  match rs with
  | [] => Eps
  | [r] => r
  | r :: rs' => Seq r (seqs rs')
  end.

Fixpoint alts (rs : list regex) : regex :=
  match rs with
  | [] => Eps
  | [r] => r
  | r :: rs' => Alt r (alts rs')
  end.

(** \s, \d, \s+, \s*, \d+ *)
Definition ws : atom := ASet false [CSpace].
Definition dg : atom := ASet false [CDigit].
Definition ws1 : regex := Rep ws 1 None true.
Definition ws0 : regex := Rep ws 0 None true.
Definition dg1 : regex := Rep dg 1 None true.
Definition word (w : string) : regex := Lit (py w).
Definition chr (c : string) : atom :=
  match py c with
  | [x] => AChr x
  | _ => AAny
  end.

Definition caps := gmap nat (nat * nat).

(** A match object: its span and the spans of its groups. *)
Record rmatch := {
  m_start : nat;
  m_end : nat;
  m_caps : caps
}.

Definition N_range (lo hi : N) : list N :=
  map N.of_nat (seq (N.to_nat lo) (N.to_nat (hi + 1 - lo))).

Section Regex.
Variable E : externals.
(** The flag re.IGNORECASE of the pattern. *)
Variable ic : bool.

Definition item_match (c : N) (i : citem) : bool :=
  match i with
  | CChr p => (c =? p)%N
  | CRange lo hi => in_range lo hi c
  | CSpace => is_space c
  | CDigit => is_digit E c
  end.

Definition item_cased (i : citem) : bool :=
  match i with
  | CChr p => is_cased p
  | CRange lo hi => existsb is_cased (N_range lo hi)
  | _ => false
  end.

(** A set with cased members is compared with the lowered character
    against its lowered members and their equivalents. *)
Definition item_match_ci (lc : N) (i : citem) : bool :=
  match i with
  | CChr p =>
      (lc =? lower_simple E p)%N || mem lc (case_fixes (lower_simple E p))
  | CRange lo hi =>
      existsb
        (fun x => (lc =? lower_simple E x)%N
                  || mem lc (case_fixes (lower_simple E x)))
        (N_range lo hi)
  | CSpace => is_space lc
  | CDigit => is_digit E lc
  end.

Definition atom_match (a : atom) (c : N) : bool :=
  match a with
  | AChr p => chr_match E ic p c
  | ASet neg items =>
      xorb neg
        (if ic && existsb item_cased items
         then existsb (item_match_ci (lower_simple E c)) items
         else existsb (item_match c) items)
  | AAny => negb (c =? 0x0A)%N
  end.

Definition is_word_opt (c : option N) : bool :=
  match c with
  | Some x => is_word E x
  | None => false
  end.

Fixpoint lit_match (w : str) (prev : option N) (s : str) (pos : nat)
  : option (option N * str * nat) :=
  match w with
  | [] => Some (prev, s, pos)
  | p :: w' =>
      match s with
      | c :: s' =>
          if chr_match E ic p c then lit_match w' (Some c) s' (S pos) else None
      | [] => None
      end
  end.

Section Repeat.
Context {R : Type}.
Variable p : N -> bool.
Variable k : option N -> str -> nat -> option R.

Definition hi_zero (hi : option nat) : bool :=
  match hi with Some O => true | _ => false end.

(** As many as possible first, then fewer. *)
Fixpoint rep_greedy (lo : nat) (hi : option nat)
  (prev : option N) (s : str) (pos : nat) {struct s} : option R :=
  let stop := match lo with O => k prev s pos | S _ => None end in
  if hi_zero hi then stop
  else
    match s with
    | c :: s' =>
        if p c then
          match rep_greedy (pred lo) (pred <$> hi) (Some c) s' (S pos) with
          | Some r => Some r
          | None => stop
          end
        else stop
    | [] => stop
    end.

(** As few as possible first, then more. *)
Fixpoint rep_lazy (lo : nat) (hi : option nat)
  (prev : option N) (s : str) (pos : nat) {struct s} : option R :=
  let stop := match lo with O => k prev s pos | S _ => None end in
  match stop with
  | Some r => Some r
  | None =>
      if hi_zero hi then None
      else
        match s with
        | c :: s' =>
            if p c
            then rep_lazy (pred lo) (pred <$> hi) (Some c) s' (S pos)
            else None
        | [] => None
        end
  end.
End Repeat.

Definition kont := option N -> str -> nat -> caps -> option (nat * caps).

(** The backtracking matcher: [prev] is the character before the current
    position (none at the start of the text), [s] the rest of the text,
    [k] what has to match after [r]. Alternatives are tried in the order
    of the pattern. *)
Fixpoint rx (r : regex) (prev : option N) (s : str) (pos : nat) (cs : caps)
  (k : kont) {struct r} : option (nat * caps) :=
  match r with
  | Eps => k prev s pos cs
  | One a =>
      match s with
      | c :: s' => if atom_match a c then k (Some c) s' (S pos) cs else None
      | [] => None
      end
  | Lit w =>
      match lit_match w prev s pos with
      | Some (prev', s', pos') => k prev' s' pos' cs
      | None => None
      end
  | Rep a lo hi greedy =>
      if greedy
      then rep_greedy (atom_match a) (fun q s' n => k q s' n cs) lo hi prev s pos
      else rep_lazy (atom_match a) (fun q s' n => k q s' n cs) lo hi prev s pos
  | Seq r1 r2 =>
      rx r1 prev s pos cs (fun q s' n cs' => rx r2 q s' n cs' k)
  | Alt r1 r2 =>
      match rx r1 prev s pos cs k with
      | Some x => Some x
      | None => rx r2 prev s pos cs k
      end
  | Opt r1 =>
      match rx r1 prev s pos cs k with
      | Some x => Some x
      | None => k prev s pos cs
      end
  | Grp g r1 =>
      rx r1 prev s pos cs (fun q s' n cs' => k q s' n (<[g := (pos, n)]> cs'))
  | Bol =>
      match prev with
      | None => k prev s pos cs
      | Some _ => None
      end
  | Eol =>
      match s with
      | [] => k prev s pos cs
      | [c] => if (c =? 0x0A)%N then k prev s pos cs else None
      | _ => None
      end
  | Wordb =>
      if xorb (is_word_opt prev) (is_word_opt (head s))
      then k prev s pos cs
      else None
  | Ahead r1 =>
      match rx r1 prev s pos cs (fun _ _ n cs' => Some (n, cs')) with
      | Some (_, cs') => k prev s pos cs'
      | None => None
      end
  end.

(** One attempt at one position; [must_advance] refuses the empty match
    right after an empty match. *)
Definition try_at (must_advance : bool) (r : regex)
  (prev : option N) (s : str) (pos : nat) : option rmatch :=
  match rx r prev s pos ∅
          (fun _ _ n cs =>
             if must_advance && (n =? pos) then None else Some (n, cs)) with
  | Some (n, cs) => Some {| m_start := pos; m_end := n; m_caps := cs |}
  | None => None
  end.

Fixpoint search_from (r : regex) (prev : option N) (s : str) (pos : nat)
  : option rmatch :=
  match try_at false r prev s pos with
  | Some m => Some m
  | None =>
      match s with
      | [] => None
      | c :: s' => search_from r (Some c) s' (S pos)
      end
  end.

(** [pattern.match(text)] and [pattern.search(text)] *)
Definition re_match (r : regex) (text : str) : option rmatch :=
  try_at false r None text 0.

Definition re_search (r : regex) (text : str) : option rmatch :=
  search_from r None text 0.

(** [pattern.finditer(text)]: the matches from left to right, without
    overlap; [skip] counts the characters of the last match still to be
    passed. *)
Fixpoint scan (r : regex) (skip : nat) (prev : option N) (s : str) (pos : nat)
  {struct s} : list rmatch :=
  match skip with
  | S n =>
      match s with
      | c :: s' => scan r n (Some c) s' (S pos)
      | [] => []
      end
  | O =>
      match try_at false r prev s pos with
      | Some m =>
          if m_end m =? pos then
            match try_at true r prev s pos with
            | Some m' =>
                m :: m' ::
                  match s with
                  | c :: s' => scan r (m_end m' - pos - 1) (Some c) s' (S pos)
                  | [] => []
                  end
            | None =>
                m ::
                  match s with
                  | c :: s' => scan r 0 (Some c) s' (S pos)
                  | [] => []
                  end
            end
          else
            m ::
              match s with
              | c :: s' => scan r (m_end m - pos - 1) (Some c) s' (S pos)
              | [] => []
              end
      | None =>
          match s with
          | c :: s' => scan r 0 (Some c) s' (S pos)
          | [] => []
          end
      end
  end.

Definition re_finditer (r : regex) (text : str) : list rmatch :=
  scan r 0 None text 0.
End Regex.

(** [m.group(g)]; every group the program reads takes part in the match. *)
Definition group (text : str) (m : rmatch) (g : nat) : str :=
  match m_caps m !! g with
  | Some (a, b) => slice a b text
  | None => []
  end.

(** [m.start(g)] *)
Definition group_start (m : rmatch) (g : nat) : nat :=
  match m_caps m !! g with
  | Some (a, _) => a
  | None => m_start m
  end.

(** A replacement template: text and group references. *)
Inductive tpl :=
| TLit (s : str)
| TGroup (g : nat).

Definition expand (text : str) (m : rmatch) (t : list tpl) : str :=
  flat_map (fun x => match x with TLit s => s | TGroup g => group text m g end) t.

Fixpoint substitute (text : str) (from : nat) (ms : list rmatch) (t : list tpl) : str :=
  match ms with
  | [] => drop from text
  | m :: ms' =>
      slice from (m_start m) text ++ expand text m t
        ++ substitute text (m_end m) ms' t
  end.

(** [re.sub(pattern, repl, text)] *)
Definition re_sub (E : externals) (ic : bool) (r : regex) (t : list tpl) (text : str) : str :=
  substitute text 0 (re_finditer E ic r text) t.

Fixpoint pieces (text : str) (from : nat) (ms : list rmatch) : list str :=
  match ms with
  | [] => [drop from text]
  | m :: ms' => slice from (m_start m) text :: pieces text (m_end m) ms'
  end.

(** [re.split(pattern, text, maxsplit)] for a pattern without groups;
    [maxsplit = 0] is no limit. *)
Definition re_split (E : externals) (ic : bool) (r : regex) (maxsplit : nat) (text : str)
  : list str :=
  let ms := re_finditer E ic r text in
  pieces text 0 (match maxsplit with O => ms | _ => take maxsplit ms end).

Definition Qltb (a b : Q) : bool := negb (Qle_bool b a).

(** ** app/utils/text.py *)

Module Text.
Section Text.
Variable E : externals.

Definition not_alnum_lower : regex :=
  One (ASet true [CRange 0x61 0x7A; CRange 0x30 0x39]).

Definition make_fingerprint (text : str) : str :=
  match text with
  | [] => []
  | _ =>
      let text := unidecode E text in
      let text := lower text in
      re_sub E false not_alnum_lower [] text
  end.

(** The punctuation stripped from both ends: full stop, comma,
    exclamation and question marks, semicolon, colon and both quotes. *)
Definition edge_punctuation : str := py ".,!?;:" ++ [0x22%N] ++ py "'".

Definition normalize_text (text : str) : str :=
  match text with
  | [] => []
  | _ =>
      let text := unidecode E text in
      let text := lower text in
      let text := join (py " ") (split_ws text) in
      strip_chars edge_punctuation text
  end.

(** Every maximal run of digits of [text], converted with [int]. *)
Definition extract_numbers (text : str) : list Z :=
  map (fun m => int_of_digits E (slice (m_start m) (m_end m) text))
    (re_finditer E false dg1 text).

Definition word_map : gmap str Z :=
  list_to_map
    [ (py "um", 1%Z); (py "uma", 1%Z);
      (py "dois", 2%Z); (py "duas", 2%Z);
      (py "tres", 3%Z);
      (py "quatro", 4%Z);
      (py "cinco", 5%Z);
      (py "seis", 6%Z); (py "meia duzia", 6%Z);
      (py "sete", 7%Z);
      (py "oito", 8%Z);
      (py "nove", 9%Z);
      (py "dez", 10%Z);
      (py "onze", 11%Z);
      (py "doze", 12%Z); (py "uma duzia", 12%Z) ].

Definition parse_quantity (text : str) : result Z :=
  let text := normalize_text text in
  match word_map !! text with
  | Some n => Ok n
  | None =>
      match int_of_float E text with
      | Ok n => Ok n
      | Raise ValueError =>
          match extract_numbers text with
          | n :: _ => Ok n
          | [] => Ok 1%Z
          end
      | Raise e => Raise e
      end
  end.

(** [rapidfuzz.process.extractOne(query, choices, scorer=fuzz.WRatio)]:
    the choice with the highest score, the first of them when several
    reach it, with its score and its index; nothing for no choice. *)
Fixpoint extract_one_from (query : str) (choices : list str) (index : nat)
  (best : option (str * Q * nat)) : option (str * Q * nat) :=
  match choices with
  | [] => best
  | c :: rest =>
      let score := wratio E query c in
      let best' :=
        match best with
        | None => Some (c, score, index)
        | Some (_, b, _) => if Qltb b score then Some (c, score, index) else best
        end in
      extract_one_from query rest (S index) best'
  end.

Definition extractOne (query : str) (choices : list str) : option (str * Q * nat) :=
  extract_one_from query choices 0 None.

Definition find_best_match (query : str) (candidates : list str) (threshold : Q)
  : option str * Q :=
  match candidates with
  | [] => (None, 0%Q)
  | _ =>
      let query_normalized := normalize_text query in
      let candidates_normalized := map normalize_text candidates in
      match extractOne query_normalized candidates_normalized with
      | None => (None, 0%Q)
      | Some (_, score, index) =>
          let score := (score / 100)%Q in
          if Qltb score threshold then (None, score)
          else (candidates !! index, score)
      end
  end.

(** Insertion by descending score, before the later choices of the same
    score. *)
Fixpoint insert_by_score (x : str * Q * nat) (l : list (str * Q * nat))
  : list (str * Q * nat) :=
  match l with
  | [] => [x]
  | y :: l' =>
      if Qle_bool (snd (fst y)) (snd (fst x))
      then x :: l
      else y :: insert_by_score x l'
  end.

Fixpoint score_all (query : str) (choices : list str) (index : nat)
  : list (str * Q * nat) :=
  match choices with
  | [] => []
  | c :: rest => (c, wratio E query c, index) :: score_all query rest (S index)
  end.

(** [rapidfuzz.process.extract(query, choices, scorer=fuzz.WRatio, limit)]:
    the [limit] best choices by descending score, equal scores in the
    order of the choices. *)
Definition extract (query : str) (choices : list str) (limit : nat)
  : list (str * Q * nat) :=
  take limit (foldr insert_by_score [] (score_all query choices 0)).

Definition find_matches (query : str) (candidates : list str) (threshold : Q)
  (limit : nat) : list (str * Q) :=
  match candidates with
  | [] => []
  | _ =>
      let query_normalized := normalize_text query in
      let candidates_normalized := map normalize_text candidates in
      let results := extract query_normalized candidates_normalized limit in
      omap
        (fun '(_, score, index) =>
           let score := (score / 100)%Q in
           if Qle_bool threshold score
           then (fun c => (c, score)) <$> candidates !! index
           else None)
        results
  end.

(** [text[:k]] for any integer [k]: a negative [k] counts from the end. *)
Definition slice_to (k : Z) (s : str) : str :=
  if (0 <=? k)%Z then take (Z.to_nat k) s
  else take (Z.to_nat (len s + k)) s.

(** [truncate(text, max_length, suffix)]; the defaults of the source are 100
    and three full stops. *)
Definition truncate (text : str) (max_length : Z) (suffix : str) : str :=
  if (len text <=? max_length)%Z then text
  else slice_to (max_length - len suffix) text ++ suffix.

(** A run of characters other than [c] between two [mark]s, as group 1. *)
Definition delimited (mark : str) (c : N) : regex :=
  seqs [ Lit mark; Grp 1 (Rep (ASet true [CChr c]) 1 None true); Lit mark ].

Definition bold_re : regex := delimited (py "*") 0x2A.
Definition italic_re : regex := delimited (py "_") 0x5F.
Definition strike_re : regex := delimited (py "~") 0x7E.
Definition block_re : regex := delimited (py "```") 0x60.
Definition mono_re : regex := delimited (py "`") 0x60.

Definition clean_whatsapp_formatting (text : str) : str :=
  let text := re_sub E false bold_re [TGroup 1] text in
  let text := re_sub E false italic_re [TGroup 1] text in
  let text := re_sub E false strike_re [TGroup 1] text in
  let text := re_sub E false block_re [TGroup 1] text in
  re_sub E false mono_re [TGroup 1] text.
End Text.
End Text.

(** ** app/services/interpreter/parser.py *)

Module ParsedItem.
Record t := mk {
  raw : str;
  quantity : Z;
  name : str;
  additions : list str;
  removals : list str;
  notes : list str;
  is_additional_only : bool;
  size_hint : option str;
  match_text : str
}.
End ParsedItem.
Import ParsedItem.
Abbreviation ParsedItem := ParsedItem.t.

Module Parser.

Definition _WORD_NUMBERS : regex :=
  alts [ word "um"; word "uma"; word "dois"; word "duas"; word "tres";
         word "três"; word "quatro"; word "cinco"; word "seis"; word "sete";
         word "oito"; word "nove"; word "dez" ].

(** Patterns compiled with re.IGNORECASE, except [_TIMESTAMP_RE]. *)
Definition _ITEM_START_RE : regex :=
  seqs [ alts [ Bol;
                Rep (AChr 0x0A) 1 None true;
                seqs [ws1; word "e"; ws1];
                seqs [ws0; word ","; ws0];
                seqs [ws0; word ";"; ws0] ];
         Grp 1 (Alt _WORD_NUMBERS dg1);
         Wordb; ws0;
         Opt (Seq (word "x") ws0) ].

Definition _SEGMENT_RE : regex :=
  seqs [ Bol; Grp 1 dg1; ws0; Opt (Seq (word "x") ws0);
         Grp 2 (Rep AAny 0 None true); Eol ].

Definition _WORD_QTY_RE : regex :=
  seqs [ Bol; Grp 1 _WORD_NUMBERS; Wordb ].

Definition _CUTOFF_RE : regex :=
  seqs [ Wordb;
         Grp 1 (alts [ seqs [word "para"; ws1; word "a"];
                       seqs [word "para"; ws1; word "o"];
                       word "pagamento";
                       word "entrega" ]);
         Wordb ].

Definition digits (n : nat) : regex := Rep dg n (Some n) true.

Definition _TIMESTAMP_RE : regex :=
  seqs [ Bol; word "["; Rep dg 1 (Some 2) true; word ":"; digits 2; word ",";
         ws0; digits 2; word "/"; digits 2; word "/"; digits 4; word "]";
         ws1; Rep (ASet true [CChr 0x3A]) 1 None true; word ":"; ws0 ].

Definition period_of_day : regex :=
  alts [ seqs [word "boa"; ws1; word "noite"];
         seqs [word "bom"; ws1; word "dia"];
         seqs [word "boa"; ws1; word "tarde"] ].

Definition _GREETING_RE : regex :=
  seqs [ Bol; ws0;
         Grp 1 (alts [ word "oi"; word "ola"; word "olá";
                       seqs [word "boa"; ws1; word "noite"];
                       seqs [word "bom"; ws1; word "dia"];
                       seqs [word "boa"; ws1; word "tarde"];
                       word "opa";
                       Seq (word "oii") (Rep (chr "i") 1 None true);
                       seqs [word "bia"; ws1; word "noite"] ]);
         Opt (Grp 2 (Seq ws1 (Grp 3 period_of_day)));
         ws0; Eol ].

Definition _LEADING_VERBS_RE : regex :=
  seqs [ Bol; ws0;
         Grp 1 (alts [ seqs [word "gostaria"; ws1; word "de"; ws1; word "fazer";
                             ws1; word "um"; ws1; word "pedido"];
                       seqs [word "gostaria"; ws1; word "de"; ws1; word "fazer"];
                       seqs [word "gostaria"; ws1; word "de"];
                       word "gostaria"; word "queria"; word "quero"; word "ve";
                       word "vê"; word "ver"; word "manda"; word "pode";
                       word "vou"; word "vai" ]);
         Wordb ].

Definition _CONTEXT_RE : regex :=
  seqs [ Wordb;
         Grp 1 (alts [ word "rua"; word "bairro"; word "numero"; word "número";
                       word "prox"; word "próx"; word "praça"; word "entrega";
                       word "entregar"; word "pagamento"; word "pix";
                       word "debito"; word "débito"; word "credito";
                       word "crédito"; word "cartao"; word "cartão";
                       word "troco"; word "casa"; word "apto";
                       word "apartamento"; word "blz"; word "ok";
                       seqs [word "tudo"; ws1; word "bem"];
                       word "quantos"; word "deu" ]);
         Wordb ].

Definition _NOTE_KEYWORDS : list str :=
  [ py "cortado ao meio"; py "bem passado" ].

(** The anonymous patterns of the module, in the order of the source. *)
Definition has_x_re : regex :=
  seqs [ Bol; Opt (Grp 1 (Alt _WORD_NUMBERS dg1)); ws0; word "x"; Wordb ].

Definition adicional_re : regex := seqs [Wordb; word "adicional"; Wordb].
Definition x_word_re : regex := seqs [Wordb; word "x"; Wordb].
Definition com_re : regex := seqs [Wordb; word "com"; Wordb].
Definition x_prefix_re : regex := seqs [Bol; word "x"; ws1].

Definition removal_re : regex :=
  seqs [ Wordb; word "sem"; ws1;
         Grp 1 (Rep (ASet true [CChr 0x2C]) 1 None false);
         Ahead (Grp 2 (alts [ seqs [Wordb; word "sem"; Wordb];
                              seqs [Wordb; word "com"; Wordb];
                              Eol ])) ].

Definition e_between_re : regex := seqs [ws1; word "e"; ws1].

Definition greeting_prefix_re : regex :=
  seqs [ Bol; ws0;
         Grp 1 (alts [ Seq (word "oii") (Rep (chr "i") 1 None true);
                       word "oi"; word "ola"; word "olá";
                       seqs [word "boa"; ws1; word "noite"];
                       seqs [word "bom"; ws1; word "dia"];
                       seqs [word "boa"; ws1; word "tarde"];
                       word "opa" ]);
         ws0; Rep (chr ",") 0 (Some 1) true; ws0 ].

Definition period_prefix_re : regex :=
  seqs [ Bol; ws0; Grp 1 period_of_day; ws0; Rep (chr ",") 0 (Some 1) true; ws0 ].

Definition eu_prefix_re : regex := seqs [Bol; ws0; word "eu"; ws1].
Definition e_prefix_re : regex := seqs [Bol; ws0; word "e"; ws1].

Definition list_separator_re : regex :=
  Alt (seqs [ws1; word "e"; ws1]) (word ",").

Definition parens_re : regex := One (ASet false [CChr 0x28; CChr 0x29]).
Definition trailing_e_de_re : regex :=
  seqs [ Wordb; Grp 1 (Alt (word "e") (word "de")); Wordb; Eol ].

Section Parser.
Variable E : externals.

Abbreviation normalize_text := (Text.normalize_text E).
Abbreviation parse_quantity := (Text.parse_quantity E).

Definition found (m : option rmatch) : bool :=
  match m with Some _ => true | None => false end.

Definition nonempty (s : str) : bool :=
  match s with [] => false | _ => true end.

Definition nonempty_list {A} (l : list A) : bool :=
  match l with [] => false | _ => true end.

Definition _clean_text (text : str) : str :=
  let cleaned := strip_chars (py ",;") (strip text) in
  let cleaned := re_sub E false parens_re [] cleaned in
  let cleaned := re_sub E false ws1 [TLit (py " ")] cleaned in
  let cleaned := strip (re_sub E true trailing_e_de_re [] cleaned) in
  strip cleaned.

Definition _split_list (text : str) : list str :=
  match text with
  | [] => []
  | _ =>
      let parts := re_split E true list_separator_re 0 text in
      map _clean_text (filter (fun p => nonempty (_clean_text p) = true) parts)
  end.

Definition _is_context_line (text : str) : bool :=
  if found (re_match E true _GREETING_RE text) then true
  else found (re_search E true _CONTEXT_RE text).

Definition _strip_metadata (text : str) : str :=
  let cleaned := strip (re_sub E false _TIMESTAMP_RE [] text) in
  let cleaned := re_sub E true greeting_prefix_re [] cleaned in
  let cleaned := re_sub E true period_prefix_re [] cleaned in
  let cleaned := re_sub E true eu_prefix_re [] cleaned in
  let cleaned := strip_chars (py " ,.-") (re_sub E true _LEADING_VERBS_RE [] cleaned) in
  let cleaned := re_sub E true e_prefix_re [] cleaned in
  strip cleaned.

Definition _extract_removals (text : str) : str * list str :=
  let removals :=
    flat_map (fun m => _split_list (strip (group text m 1)))
      (re_finditer E true removal_re text) in
  let cleaned := re_sub E true removal_re [] text in
  let cleaned :=
    match removals with
    | [] => cleaned
    | _ => re_sub E true e_between_re [TLit (py " ")] cleaned
    end in
  let cleaned := _clean_text cleaned in
  (cleaned, removals).

(** The loop over [_NOTE_KEYWORDS]; the keyword is used as a pattern, and
    has no special character. *)
Fixpoint extract_notes_loop (keywords : list str) (notes : list str) (cleaned : str)
  : list str * str :=
  match keywords with
  | [] => (notes, cleaned)
  | keyword :: rest =>
      if contains keyword (normalize_text cleaned)
      then extract_notes_loop rest (notes ++ [keyword])
             (strip (re_sub E true (Lit keyword) [] cleaned))
      else extract_notes_loop rest notes cleaned
  end.

Definition _extract_notes (text : str) : list str * str :=
  extract_notes_loop _NOTE_KEYWORDS [] text.

Definition _parse_segment (segment : str) : result (option ParsedItem) :=
  let segment := strip segment in
  let* qd :=
    match re_match E true _SEGMENT_RE segment with
    | Some m => Ok (int_of_digits E (group segment m 1), strip (group segment m 2))
    | None =>
        match re_match E true _WORD_QTY_RE segment with
        | Some word_match =>
            let* quantity := parse_quantity (group segment word_match 1) in
            Ok (quantity, strip (drop (m_end word_match) segment))
        | None => Ok (1%Z, strip segment)
        end
    end in
  let '(quantity, desc) := qd in
  let raw := strip segment in
  let has_x := found (re_match E true has_x_re segment) in
  let '(notes, desc) := _extract_notes desc in
  let is_additional_only :=
    found (re_search E false adicional_re (normalize_text desc))
    && negb (found (re_search E true x_word_re raw)) in
  let desc := strip (re_sub E true adicional_re [] desc) in
  let '(desc, removals) := _extract_removals desc in
  let* split :=
    if found (re_search E true com_re desc) then
      match re_split E true com_re 1 desc with
      | [base_name; add_part] => Ok (base_name, _split_list add_part)
      | _ => Raise ValueError
      end
    else Ok (desc, []) in
  let '(base_name, additions) := split in
  let base_name := _clean_text base_name in
  let base_name :=
    if has_x && negb (found (re_match E true x_prefix_re base_name))
    then strip (py "x " ++ base_name)
    else base_name in
  Ok (Some {| raw := raw;
              quantity := quantity;
              name := base_name;
              additions := additions;
              removals := removals;
              notes := notes;
              is_additional_only := is_additional_only;
              size_hint := None;
              match_text := base_name |}).

(** The inner loop of [_split_segments] over the item starts of a line. *)
Fixpoint segments_between (line : str) (matches : list rmatch) : list str :=
  match matches with
  | [] => []
  | m :: rest =>
      let start := group_start m 1 in
      let end_ :=
        match rest with
        | next :: _ => group_start next 1
        | [] => length line
        end in
      let segment := strip_chars (py " ,;") (slice start end_ line) in
      (if nonempty segment then [segment] else []) ++ segments_between line rest
  end.

Definition _split_segments (text : str) : list str :=
  let lines :=
    map strip (filter (fun line => nonempty (strip line) = true) (splitlines text)) in
  flat_map
    (fun raw_line =>
       let line := _strip_metadata raw_line in
       if negb (nonempty line) || _is_context_line line then []
       else
         match re_finditer E true _ITEM_START_RE line with
         | [] => [strip_chars (py " ,;") line]
         | matches => segments_between line matches
         end)
    lines.

Definition _cut_context (text : str) : str :=
  if contains (py (String "010" EmptyString)) text then text
  else
    match re_search E true _CUTOFF_RE text with
    | None => text
    | Some m => strip (take (m_start m) text)
    end.

(** The loop of [parse_order_text] over the segments. *)
Fixpoint parse_segments (segments : list str) : result (list ParsedItem) :=
  match segments with
  | [] => Ok []
  | seg :: rest =>
      let* parsed := _parse_segment seg in
      let* items := parse_segments rest in
      Ok (match parsed with
          | Some item => item :: items
          | None => items
          end)
  end.

Definition parse_order_text (text : str) : result (list ParsedItem) :=
  match text with
  | [] => Ok []
  | _ =>
      let cut_text := _cut_context text in
      let segments := _split_segments cut_text in
      parse_segments segments
  end.
End Parser.
End Parser.

(** ** app/services/interpreter/resolver.py *)

(** The parsed items are objects: the resolver receives references and
    updates the objects they point to. Every item owns its three lists (the
    parser builds new ones for each item). *)
Abbreviation ref := nat.
Abbreviation store := (gmap ref ParsedItem).

Definition set_additions (v : list str) (it : ParsedItem) : ParsedItem :=
  {| raw := raw it; quantity := quantity it; name := name it;
     additions := v; removals := removals it; notes := notes it;
     is_additional_only := is_additional_only it;
     size_hint := size_hint it; match_text := match_text it |}.

Definition set_removals (v : list str) (it : ParsedItem) : ParsedItem :=
  {| raw := raw it; quantity := quantity it; name := name it;
     additions := additions it; removals := v; notes := notes it;
     is_additional_only := is_additional_only it;
     size_hint := size_hint it; match_text := match_text it |}.

Definition set_size_hint (v : option str) (it : ParsedItem) : ParsedItem :=
  {| raw := raw it; quantity := quantity it; name := name it;
     additions := additions it; removals := removals it; notes := notes it;
     is_additional_only := is_additional_only it;
     size_hint := v; match_text := match_text it |}.

Definition set_match_text (v : str) (it : ParsedItem) : ParsedItem :=
  {| raw := raw it; quantity := quantity it; name := name it;
     additions := additions it; removals := removals it; notes := notes it;
     is_additional_only := is_additional_only it;
     size_hint := size_hint it; match_text := v |}.

Module Resolver.

Definition _SIZE_HINT_PATTERNS : list (regex * str) :=
  [ (seqs [ Wordb;
            Grp 1 (alts [ word "1/4";
                          seqs [word "um"; ws1; word "quarto"];
                          seqs [word "porcao"; ws1; word "pequena"];
                          seqs [word "porcao"; ws1; word "pequena"] ]);
            Wordb ],
     py "1/4");
    (seqs [ Wordb;
            Grp 1 (alts [ word "1/2";
                          seqs [word "meia"; ws1; word "porcao"];
                          seqs [word "meia"; ws1; word "porcao"];
                          word "meia" ]);
            Wordb ],
     py "1/2") ].

(** The anonymous patterns of [_resolve_item], in the order of the source;
    all are used with re.IGNORECASE. *)
Definition x_glued_re : regex :=
  seqs [ Bol; word "x"; Ahead (One (ASet false [CRange 0x61 0x7A])) ].

Definition completo_re : regex :=
  seqs [ Wordb; word "complet"; One (ASet false [CChr 0x6F; CChr 0x61]);
         Rep (chr "s") 0 (Some 1) true; Wordb ].

Definition whole_word (w : string) : regex := seqs [Wordb; word w; Wordb].

Definition x_burg_re : regex := seqs [Wordb; word "x"; ws1; word "burg"; Wordb].
Definition bata_frita_re : regex :=
  seqs [Wordb; word "bata"; ws1; word "frita"; Wordb].

Definition litros_re : regex :=
  seqs [ Wordb; Grp 1 dg1; ws0; word "l";
         Opt (Grp 2 (Alt (word "t") (word "itros"))); Wordb ].

Section Resolver.
Variable E : externals.

Abbreviation normalize_text := (Text.normalize_text E).

Fixpoint dedupe_loop (items : list str) (seen : gset str) (result : list str)
  : list str :=
  match items with
  | [] => result
  | item :: rest =>
      if bool_decide (item ∈ seen)
      then dedupe_loop rest seen result
      else dedupe_loop rest ({[item]} ∪ seen) (result ++ [item])
  end.

Definition _dedupe (items : list str) : list str := dedupe_loop items ∅ [].

Definition _compact_spaces (text : str) : str :=
  strip (re_sub E false ws1 [TLit (py " ")] text).

Fixpoint size_hint_loop (patterns : list (regex * str)) (text : str) : option str :=
  match patterns with
  | [] => None
  | (pattern, hint) :: rest =>
      match re_search E true pattern text with
      | Some _ => Some hint
      | None => size_hint_loop rest text
      end
  end.

Definition _extract_size_hint (text : str) : option str :=
  size_hint_loop _SIZE_HINT_PATTERNS text.

(** The loop over [item.removals]. *)
Definition normalize_removals (removals : list str) : list str :=
  map
    (fun removal =>
       re_sub E true (whole_word "evilha") [TLit (py "ervilha")]
         (normalize_text removal))
    (filter (fun removal => Parser.nonempty removal = true) removals).

(** The body of [_resolve_item] on the fields of the object it is given:
    every assignment to a field of [item] is an update of [it]. *)
Definition resolve_fields (it : ParsedItem) : ParsedItem :=
  let base := normalize_text (name it) in
  let base := re_sub E true x_glued_re [TLit (py "x ")] base in
  let '(base, it) :=
    if contains (py "careca") base
    then (strip (replace (py "careca") (py " ") base),
          set_removals (removals it ++ [py "salada geral"]) it)
    else (base, it) in
  let base := strip (re_sub E true completo_re [] base) in
  let base := re_sub E true (whole_word "burger") [TLit (py "burguer")] base in
  let base := re_sub E true x_burg_re [TLit (py "x burguer")] base in
  let base := re_sub E true (whole_word "migon") [TLit (py "mignon")] base in
  let base := re_sub E true (whole_word "evilha") [TLit (py "ervilha")] base in
  let base := re_sub E true (whole_word "tbm") [] base in
  let base := re_sub E true (whole_word "tambem") [] base in
  let base :=
    if negb (contains (py "coca cola") base)
    then re_sub E true (whole_word "coca") [TLit (py "coca cola")] base
    else base in
  let base := re_sub E true bata_frita_re [TLit (py "batata frita")] base in
  let hint := _extract_size_hint base in
  let it :=
    set_size_hint (match hint with Some h => Some h | None => size_hint it end) it in
  let base :=
    if contains (py "batata frita") base then
      if contains (py "tradicional") base
      then py "batata frita tradicional"
      else py "batata frita"
    else base in
  let base := re_sub E true litros_re [TGroup 1; TLit (py " litros")] base in
  let it :=
    set_additions
      (map normalize_text
         (filter (fun a => Parser.nonempty a = true) (additions it))) it in
  let it := set_removals (_dedupe (normalize_removals (removals it))) it in
  let '(base, it) :=
    if contains (py "batata frita") base && Parser.nonempty_list (additions it)
    then (strip (base ++ py " " ++ join (py " ") (additions it)),
          set_additions [] it)
    else (base, it) in
  set_match_text (_compact_spaces base) it.

(** [_resolve_item(item)]: the object is updated in place and the same
    reference is returned. *)
Definition _resolve_item (item : ref) (h : store) : ref * store :=
  (item, alter resolve_fields item h).

(** The loop of [resolve_parsed_items]. *)
Fixpoint resolve_loop (items : list ref) (resolved : list ref) (h : store)
  : list ref * store :=
  match items with
  | [] => (resolved, h)
  | item :: rest =>
      let '(r, h') := _resolve_item item h in
      resolve_loop rest (resolved ++ [r]) h'
  end.

Definition resolve_parsed_items (items : list ref) (h : store) : list ref * store :=
  resolve_loop items [] h.
End Resolver.
End Resolver.

(** ** app/core/schemas.py: the models the matcher builds

    Constructing a model validates its fields; a violated constraint raises
    [ValidationError]. *)

Inductive PendencyReason :=
| PRODUTO_NAO_ENCONTRADO
| ADICIONAL_NAO_ENCONTRADO
| QUANTIDADE_INVALIDA
| MODIFICACAO_NAO_PERMITIDA
| AMBIGUIDADE.

(** The values stored in [dados_extras]. *)
Inductive pyval :=
| VInt (n : Z)
| VStr (s : str).

Module CartItemAddition.
Record t := mk {
  pdv : str;
  nome : str;
  quantidade : Z;
  preco_unitario : Q
}.

(** [quantidade]: ge=1, le=10; [preco_unitario]: ge=0. *)
Definition validate (pdv nome : str) (quantidade : Z) (preco_unitario : Q) : result t :=
  if (1 <=? quantidade)%Z && (quantidade <=? 10)%Z && Qle_bool 0 preco_unitario
  then Ok (mk pdv nome quantidade preco_unitario)
  else Raise ValidationError.
End CartItemAddition.

Module CartItem.
Record t := mk {
  pdv : str;
  nome : str;
  quantidade : Z;
  preco_unitario : Q;
  adicionais : list CartItemAddition.t;
  observacoes : str;
  preco_total_unitario : option Q;
  preco_total : option Q
}.

Definition adicionais_total (adicionais : list CartItemAddition.t) : Q :=
  fold_left
    (fun acc a =>
       acc + CartItemAddition.preco_unitario a
             * inject_Z (CartItemAddition.quantidade a))%Q
    adicionais 0%Q.

(** [quantidade]: ge=1, le=50 (the before-validator leaves an [int] as it
    is); [preco_unitario]: ge=0; [observacoes]: max_length=500; then
    [calculate_totals] fills the two totals. *)
Definition validate (pdv nome : str) (quantidade : Z) (preco_unitario : Q)
  (adicionais : list CartItemAddition.t) (observacoes : str) : result t :=
  if (1 <=? quantidade)%Z && (quantidade <=? 50)%Z && Qle_bool 0 preco_unitario
     && (length observacoes <=? 500)
  then
    let total_unitario := (preco_unitario + adicionais_total adicionais)%Q in
    Ok (mk pdv nome quantidade preco_unitario adicionais observacoes
          (Some total_unitario)
          (Some (total_unitario * inject_Z quantidade)%Q))
  else Raise ValidationError.
End CartItem.

Module CartPendency.
Record t := mk {
  motivo : PendencyReason;
  texto_original : str;
  sugestoes : list str;
  dados_extras : gmap str pyval
}.

(** [sugestoes]: max_length=5. *)
Definition validate (motivo : PendencyReason) (texto_original : str)
  (sugestoes : list str) (dados_extras : gmap str pyval) : result t :=
  if length sugestoes <=? 5
  then Ok (mk motivo texto_original sugestoes dados_extras)
  else Raise ValidationError.
End CartPendency.

Module InterpretedOrder.
Record t := mk {
  items : list CartItem.t;
  pendencies : list CartPendency.t;
  raw_text : str;
  confidence : Q
}.

(** [confidence]: ge=0, le=1. *)
Definition validate (items : list CartItem.t) (pendencies : list CartPendency.t)
  (raw_text : str) (confidence : Q) : result t :=
  if Qle_bool 0 confidence && Qle_bool confidence 1
  then Ok (mk items pendencies raw_text confidence)
  else Raise ValidationError.
End InterpretedOrder.

(** ** app/services/interpreter/matcher.py *)

(** A row of the view v_menu_search_index, the dict the matcher reads:
    [pdv], [nome_original] and [item_type] are text, the other three
    columns may be null. *)
Module MenuEntry.
Record t := mk {
  pdv : str;
  parent_pdv : option str;
  nome_original : str;
  price : option Q;
  item_type : str;
  fingerprint : option str
}.
End MenuEntry.

Module Matcher.
Import MenuEntry.

(** The fuzzy threshold and the number of suggestions. *)
Definition threshold : Q := 6 # 10.
Definition limit : nat := 5.

Section Matcher.
Variable E : externals.

Abbreviation normalize_text := (Text.normalize_text E).
Abbreviation make_fingerprint := (Text.make_fingerprint E).
Abbreviation find_best_match := (Text.find_best_match E).
Abbreviation find_matches := (Text.find_matches E).

(** Truth value of an optional string. *)
Definition truthy (o : option str) : bool :=
  match o with
  | Some (_ :: _) => true
  | _ => false
  end.

Definition _to_decimal (value : option Q) : Q :=
  match value with
  | None => 0%Q
  | Some d => d
  end.

Definition _compute_confidence (pendencies : list CartPendency.t) : Q :=
  let count := length pendencies in
  Qmax (1 # 10) (1 - (2 # 10) * inject_Z (Z.of_nat count)).

Definition _build_observacoes (item : ParsedItem) : str :=
  let parts := [] in
  let parts :=
    if Parser.nonempty_list (removals item)
    then parts ++ [py "Sem: " ++ join (py ", ") (removals item)]
    else parts in
  let parts :=
    if Parser.nonempty_list (notes item)
    then parts ++ [py "Obs: " ++ join (py ", ") (notes item)]
    else parts in
  join (py " | ") parts.

Definition _addition_label (entry : MenuEntry.t) : str :=
  let name := normalize_text (nome_original entry) in
  let name := replace (py "adicionais") [] (replace (py "adicionais no prato") [] name) in
  strip name.

Definition _clean_addition_name (name : str) : str :=
  let cleaned :=
    replace (py "Adicionais no Prato ") [] (replace (py "Adicionais ") [] name) in
  strip cleaned.

Definition _suggest_products (query : str) (products : list MenuEntry.t) : list str :=
  let names := map nome_original products in
  map fst (find_matches query names threshold limit).

Definition _suggest_additions (query : str) (additions : list MenuEntry.t) : list str :=
  let labels := map _addition_label additions in
  map fst (find_matches query labels threshold limit).

Definition _pendency_for_additional_only (item : ParsedItem) (products : list MenuEntry.t)
  : result CartPendency.t :=
  let suggestions := _suggest_products (name item) products in
  CartPendency.validate ADICIONAL_NAO_ENCONTRADO (raw item) suggestions
    (<[py "quantidade" := VInt (quantity item)]>
       (<[py "adicional" := VStr (name item)]> ∅)).

Definition query_of (item : ParsedItem) : str :=
  if Parser.nonempty (match_text item) then match_text item else name item.

Definition _pendency_for_missing_product (item : ParsedItem) (products : list MenuEntry.t)
  : result CartPendency.t :=
  let suggestions := _suggest_products (query_of item) products in
  CartPendency.validate PRODUTO_NAO_ENCONTRADO (raw item) suggestions
    (<[py "quantidade" := VInt (quantity item)]> ∅).

(** The first entry of [entries] that satisfies [p], as the loops that
    return from inside do. *)
Definition first_entry (p : MenuEntry.t -> bool) (entries : list MenuEntry.t)
  : option MenuEntry.t :=
  List.find p entries.

Definition _match_addition (text : str) (additions : list MenuEntry.t)
  : option MenuEntry.t :=
  match additions with
  | [] => None
  | _ =>
      let query_fp := make_fingerprint text in
      match first_entry
              (fun entry => str_eqb (make_fingerprint (_addition_label entry)) query_fp)
              additions with
      | Some entry => Some entry
      | None =>
          let labels := map _addition_label additions in
          match fst (find_best_match text labels threshold) with
          | None => None
          | Some [] => None
          | Some match_name =>
              first_entry (fun entry => str_eqb (_addition_label entry) match_name)
                additions
          end
      end
  end.

(** The loop of [_match_additions]; [pendencies] is the list of the caller,
    which the loop appends to. *)
Fixpoint match_additions_loop (texts : list str) (additions : list MenuEntry.t)
  (product : MenuEntry.t) (results : list CartItemAddition.t)
  (pendencies : list CartPendency.t)
  : result (list CartItemAddition.t * list CartPendency.t) :=
  match texts with
  | [] => Ok (results, pendencies)
  | addition_text :: rest =>
      match _match_addition addition_text additions with
      | None =>
          let* p :=
            CartPendency.validate ADICIONAL_NAO_ENCONTRADO addition_text
              (_suggest_additions addition_text additions)
              (<[py "produto_base" := VStr (nome_original product)]> ∅) in
          match_additions_loop rest additions product results (pendencies ++ [p])
      | Some matched =>
          let* a :=
            CartItemAddition.validate (pdv matched)
              (_clean_addition_name (nome_original matched)) 1
              (_to_decimal (price matched)) in
          match_additions_loop rest additions product (results ++ [a]) pendencies
      end
  end.

Definition _match_additions (item : ParsedItem) (additions : list MenuEntry.t)
  (pendencies : list CartPendency.t) (product : MenuEntry.t)
  : result (list CartItemAddition.t * list CartPendency.t) :=
  match ParsedItem.additions item with
  | [] => Ok ([], pendencies)
  | texts => match_additions_loop texts additions product [] pendencies
  end.

Definition or_all {A} (filtered all : list A) : list A :=
  match filtered with
  | [] => all
  | _ => filtered
  end.

Definition _filter_by_size_hint (products : list MenuEntry.t) (size_hint : str)
  : list MenuEntry.t :=
  let tokens :=
    if str_eqb size_hint (py "1/4") then [py "1/4"; py "1/4 por"; py "1/4 porcao"]
    else if str_eqb size_hint (py "1/2") then [py "meia"; py "1/2"]
    else [] in
  let filtered :=
    filter
      (fun p =>
         let name_norm := normalize_text (nome_original p) in
         existsb (fun token => contains token name_norm) tokens = true)
      products in
  or_all filtered products.

Definition _filter_plain_batata (products : list MenuEntry.t) : list MenuEntry.t :=
  let forbidden :=
    [ py "bacon"; py "queijo"; py "calabresa"; py "frango"; py "cheddar";
      py "coracao"; py "catupiry"; py "mussarela"; py "tres" ] in
  let filtered :=
    filter
      (fun p =>
         let name_norm := normalize_text (nome_original p) in
         contains (py "batata frita") name_norm
         && negb (existsb (fun word => contains word name_norm) forbidden) = true)
      products in
  or_all filtered products.

Definition _best_match (query : str) (products : list MenuEntry.t) : option MenuEntry.t :=
  match products with
  | [] => None
  | _ =>
      let names := map nome_original products in
      match fst (find_best_match query names threshold) with
      | None => None
      | Some [] => None
      | Some match_name =>
          first_entry (fun p => str_eqb (nome_original p) match_name) products
      end
  end.

Definition by_size_hint (item : ParsedItem) (products : list MenuEntry.t)
  : list MenuEntry.t :=
  if truthy (size_hint item)
  then _filter_by_size_hint products (default [] (size_hint item))
  else products.

Definition _match_product (item : ParsedItem) (products : list MenuEntry.t)
  : option MenuEntry.t :=
  let query := query_of item in
  let query_fp := make_fingerprint query in
  let exact := filter (fun p => fingerprint p = Some query_fp) products in
  match exact with
  | [p] => Some p
  | _ =>
      let query_norm := normalize_text query in
      let topped :=
        if contains (py "batata frita") query_norm
           && (contains (py "bacon") query_norm || contains (py "queijo") query_norm)
        then
          let required_tokens :=
            (if contains (py "bacon") query_norm then [py "bacon"] else [])
            ++ (if contains (py "queijo") query_norm then [py "queijo"] else []) in
          let filtered :=
            filter
              (fun p =>
                 let name_norm := normalize_text (nome_original p) in
                 contains (py "batata frita") name_norm
                 && forallb (fun token => contains token name_norm) required_tokens
                 = true)
              products in
          match filtered with
          | [] => None
          | _ => _best_match query (by_size_hint item filtered)
          end
        else None in
      match topped with
      | Some candidate => Some candidate
      | None =>
          let suco :=
            if contains (py "suco") query_norm && contains (py "morango") query_norm
            then
              let filtered :=
                filter
                  (fun p =>
                     contains (py "suco") (normalize_text (nome_original p))
                     && contains (py "morango") (normalize_text (nome_original p))
                     = true)
                  products in
              match filtered with
              | [] => None
              | _ => _best_match query filtered
              end
            else None in
          match suco with
          | Some candidate => Some candidate
          | None =>
              let plain :=
                if contains (py "batata frita") query_norm
                   && contains (py "tradicional") query_norm
                then _best_match query (by_size_hint item (_filter_plain_batata products))
                else None in
              match plain with
              | Some candidate => Some candidate
              | None =>
                  let sized :=
                    if truthy (size_hint item) && contains (py "batata frita") query_norm
                    then
                      _best_match query
                        (_filter_by_size_hint products (default [] (size_hint item)))
                    else None in
                  match sized with
                  | Some candidate => Some candidate
                  | None => _best_match query products
                  end
              end
          end
      end
  end.

(** The loop of [_build_menu_index]; the defaultdict is a finite map whose
    missing keys read as the empty list. *)
Fixpoint build_menu_loop (menu_index : list MenuEntry.t)
  (products : list MenuEntry.t) (additions_by_parent : gmap (option str) (list MenuEntry.t))
  : list MenuEntry.t * gmap (option str) (list MenuEntry.t) :=
  match menu_index with
  | [] => (products, additions_by_parent)
  | entry :: rest =>
      if str_eqb (item_type entry) (py "product")
      then build_menu_loop rest (products ++ [entry]) additions_by_parent
      else if str_eqb (item_type entry) (py "addition")
      then
        build_menu_loop rest products
          (<[parent_pdv entry :=
               default [] (additions_by_parent !! parent_pdv entry) ++ [entry]]>
             additions_by_parent)
      else build_menu_loop rest products additions_by_parent
  end.

Definition _build_menu_index (menu_index : list MenuEntry.t)
  : list MenuEntry.t * gmap (option str) (list MenuEntry.t) :=
  build_menu_loop menu_index [] ∅.

(** The loop of [match_items] over the parsed items. *)
Fixpoint match_loop (items : list ParsedItem) (products : list MenuEntry.t)
  (additions_by_parent : gmap (option str) (list MenuEntry.t))
  (interpreted_items : list CartItem.t) (pendencies : list CartPendency.t)
  : result (list CartItem.t * list CartPendency.t) :=
  match items with
  | [] => Ok (interpreted_items, pendencies)
  | item :: rest =>
      if is_additional_only item then
        let* p := _pendency_for_additional_only item products in
        match_loop rest products additions_by_parent interpreted_items
          (pendencies ++ [p])
      else
        match _match_product item products with
        | None =>
            let* p := _pendency_for_missing_product item products in
            match_loop rest products additions_by_parent interpreted_items
              (pendencies ++ [p])
        | Some product =>
            let* matched :=
              _match_additions item
                (default [] (additions_by_parent !! Some (pdv product)))
                pendencies product in
            let '(additions, pendencies) := matched in
            let observacoes := _build_observacoes item in
            let* cart_item :=
              CartItem.validate (pdv product) (nome_original product)
                (quantity item) (_to_decimal (price product)) additions observacoes in
            match_loop rest products additions_by_parent
              (interpreted_items ++ [cart_item]) pendencies
        end
  end.

Definition match_items (items : list ParsedItem) (menu_index : list MenuEntry.t)
  (raw_text : str) : result InterpretedOrder.t :=
  let '(products, additions_by_parent) := _build_menu_index menu_index in
  let* state := match_loop items products additions_by_parent [] [] in
  let '(interpreted_items, pendencies) := state in
  let confidence := _compute_confidence pendencies in
  InterpretedOrder.validate interpreted_items pendencies raw_text confidence.
End Matcher.
End Matcher.

(** ** scripts/test_order_interpreter.py: the pipeline of [run_test] *)

Module Pipeline.
Section Pipeline.
Variable E : externals.

(** The items the parser returns are new objects, one per reference. *)
Definition allocate (items : list ParsedItem) : list ref * store :=
  let refs := seq 0 (length items) in
  (refs, list_to_map (zip refs items)).

(** parse_order_text, resolve_parsed_items, match_items. *)
Definition interpret (text : str) (menu_index : list MenuEntry.t)
  : result InterpretedOrder.t :=
  let* parsed := Parser.parse_order_text E text in
  let '(refs, h) := allocate parsed in
  let '(resolved, h') := Resolver.resolve_parsed_items E refs h in
  Matcher.match_items E (omap (fun r => h' !! r) resolved) menu_index text.
End Pipeline.
End Pipeline.

(** ** An instance of the libraries for evaluation

    Code points above U+00FF are symbols without case, digit value or
    transliteration; [float] parses nothing. The scorer is rapidfuzz's plain
    ratio, [100 * 2 * lcs / (len a + len b)]. None of this is consulted on
    Basic Latin text, except the scorer. *)

Fixpoint lcs_row (a : N) (b : str) (prev : list nat) (diag left : nat) : list nat :=
  match b, prev with
  | y :: b', up :: prev' =>
      let cell := if (a =? y)%N then S diag else max up left in
      cell :: lcs_row a b' prev' up cell
  | _, _ => []
  end.

Definition lcs_length (a b : str) : nat :=
  default 0
    (last (fold_left (fun prev x => lcs_row x b prev 0 0) a (map (fun _ => 0) b))).

Definition indel_ratio (a b : str) : Q :=
  match (length a + length b)%nat with
  | O => 100%Q
  | S n => (100 * inject_Z (Z.of_nat (2 * lcs_length a b))
            / inject_Z (Z.of_nat (S n)))%Q
  end.

Definition sample_env : externals := {|
  uni_alnum := fun _ => false;
  uni_decimal := fun _ => None;
  uni_lower := fun c => c;
  unidecode_table := fun _ => [];
  wratio := indel_ratio;
  int_of_float := fun _ => Raise ValueError
|}.

(** * Properties *)

Import InterpretedOrder.

(** ** Confidence *)

Section Confidence.
Variable E : externals.

Definition confidence_of_count (count : nat) : Q :=
  Qmax (1 # 10) (1 - (2 # 10) * inject_Z (Z.of_nat count)).

Lemma confidence_of_count_bounds count :
  (1 # 10 <= confidence_of_count count)%Q /\ (confidence_of_count count <= 1)%Q.
Proof.
  unfold confidence_of_count. split.
  - apply Q.le_max_l.
  - apply Q.max_lub; [discriminate |].
    assert (0 <= inject_Z (Z.of_nat count))%Q
      by (unfold Qle; simpl; lia).
    lra.
Qed.


(** The formula as Python evaluates it, in binary64: 0.2 and 0.1 are the
    nearest doubles of the literals, and [max(0.1, x)] is [x] only when
    [0.1 < x]. *)
Definition confidence_binary64 (count : nat) : PrimFloat.float :=
  let x :=
    PrimFloat.sub 1%float
      (PrimFloat.mul 0x1.999999999999ap-3%float
         (PrimFloat.of_uint63 (Uint63.of_Z (Z.of_nat count)))) in
  if PrimFloat.ltb 0x1.999999999999ap-4%float x
  then x
  else 0x1.999999999999ap-4%float.

(** The doubles Python prints as 1.0, 0.8, 0.6, 0.3999999999999999,
    0.19999999999999996 and 0.1. *)
Lemma confidence_binary64_values :
  map confidence_binary64 (seq 0 7)
  = [ 1%float; 0x1.999999999999ap-1%float; 0x1.3333333333333p-1%float;
      0x1.9999999999998p-2%float; 0x1.9999999999998p-3%float;
      0x1.999999999999ap-4%float; 0x1.999999999999ap-4%float ].
Proof. vm_compute. reflexivity. Qed.

(** In binary64 too the confidence lies between 0.1 and 1.0 and does not
    grow with the count, here for every count up to 5000. *)
Lemma confidence_binary64_bounds :
  forallb
    (fun count =>
       PrimFloat.leb 0x1.999999999999ap-4%float (confidence_binary64 count)
       && PrimFloat.leb (confidence_binary64 count) 1%float
       && PrimFloat.leb (confidence_binary64 (S count)) (confidence_binary64 count))
    (seq 0 5000)
  = true.
Proof. vm_compute. reflexivity. Qed.

Lemma match_items_inv items menu raw_text r :
  Matcher.match_items E items menu raw_text = Ok r ->
  exists products additions_by_parent,
    Matcher._build_menu_index menu = (products, additions_by_parent)
    /\ Matcher.match_loop E items products additions_by_parent [] []
       = Ok (InterpretedOrder.items r, pendencies r)
    /\ InterpretedOrder.raw_text r = raw_text
    /\ confidence r = Matcher._compute_confidence (pendencies r).
Proof.
  unfold Matcher.match_items.
  destruct (Matcher._build_menu_index menu) as [products abp].
  destruct (Matcher.match_loop E items products abp [] []) as [[its ps]|e] eqn:Hloop;
    simpl; [|discriminate].
  unfold InterpretedOrder.validate.
  destruct (_ && _); [|discriminate].
  intros [= <-]. simpl. exists products, abp. auto.
Qed.

End Confidence.

(** ** The loops of the matcher *)

Section MatcherLoops.
Variable E : externals.
Import MenuEntry.










Lemma omap_length_le {A B} (f : A -> option B) (l : list A) :
  length (omap f l) <= length l.
Proof.
  induction l as [|x l IH]; [reflexivity |].
  change (omap f (x :: l))
    with (match f x with Some y => y :: omap f l | None => omap f l end).
  destruct (f x); simpl; lia.
Qed.

Lemma find_matches_length query candidates threshold limit :
  length (Text.find_matches E query candidates threshold limit) <= limit.
Proof.
  unfold Text.find_matches. destruct candidates as [|c cs]; simpl; [lia |].
  etransitivity; [apply omap_length_le |].
  unfold Text.extract. rewrite length_take. lia.
Qed.






End MatcherLoops.

Section MatcherRuns.
Variable E : externals.
Import MenuEntry.





Lemma order_validate_ok its ps raw_text :
  InterpretedOrder.validate its ps raw_text (Matcher._compute_confidence ps)
  = Ok (InterpretedOrder.mk its ps raw_text (Matcher._compute_confidence ps)).
Proof.
  unfold InterpretedOrder.validate, Matcher._compute_confidence.
  destruct (confidence_of_count_bounds (length ps)) as [Hlo Hhi].
  unfold confidence_of_count in *.
  assert (H0 : (0 <= Qmax (1 # 10) (1 - (2 # 10) * inject_Z (Z.of_nat (length ps))))%Q)
    by (apply Qle_trans with (1 # 10)%Q; [discriminate | exact Hlo]).
  apply Qle_bool_iff in H0, Hhi. now rewrite H0, Hhi.
Qed.




End MatcherRuns.

Section AdditionsOfCartLines.
Variable E : externals.
Import MenuEntry.

(** Every list of the index of additions holds entries of the menu of type
    addition. *)
Lemma build_menu_loop_additions (P : MenuEntry.t -> Prop) menu products abp :
  (forall entry, In entry menu -> item_type entry = py "addition" -> P entry) ->
  (forall k l, abp !! k = Some l -> Forall P l) ->
  forall k l,
    snd (Matcher.build_menu_loop menu products abp) !! k = Some l -> Forall P l.
Proof.
  revert products abp.
  induction menu as [|entry menu IH]; intros products abp Hmenu Habp; simpl;
    [exact Habp |].
  assert (Hrest : forall e, In e menu -> item_type e = py "addition" -> P e)
    by (intros e He; apply Hmenu; now right).
  destruct (str_eqb (item_type entry) (py "product")); [now apply IH |].
  destruct (str_eqb (item_type entry) (py "addition")) eqn:Htype; [|now apply IH].
  apply IH; [exact Hrest |].
  intros k l. destruct (decide (parent_pdv entry = k)) as [<-|Hne].
  - rewrite lookup_insert_eq. intros [= <-].
    apply Forall_app. split.
    + destruct (abp !! parent_pdv entry) as [l0|] eqn:Hl0; simpl;
        [now apply (Habp _ _ Hl0) | constructor].
    + constructor; [|constructor].
      apply Hmenu; [now left |].
      unfold str_eqb in Htype. now apply bool_decide_eq_true in Htype.
  - rewrite lookup_insert_ne by assumption. apply Habp.
Qed.



End AdditionsOfCartLines.

(** ** find_best_match *)

Section BestMatch.
Variable E : externals.

Lemma find_best_match_no_candidates query threshold :
  Text.find_best_match E query [] threshold = (None, 0%Q).
Proof. reflexivity. Qed.

(** The score of the best candidate is returned also when it is below the
    threshold. *)
Lemma find_best_match_below query candidates threshold choice score index :
  candidates <> [] ->
  Text.extractOne E (Text.normalize_text E query)
    (map (Text.normalize_text E) candidates) = Some (choice, score, index) ->
  Qltb (score / 100) threshold = true ->
  Text.find_best_match E query candidates threshold = (None, (score / 100)%Q).
Proof.
  intros Hne Hbest Hlow. unfold Text.find_best_match.
  destruct candidates as [|c cs]; [contradiction |].
  rewrite Hbest. now rewrite Hlow.
Qed.

(** C3, at the failing input. With one candidate that scores 50, below the
    threshold 0.6, [find_best_match] returns no candidate together with the
    score 0.5, not with 0.0. *)
Theorem find_best_match_keeps_low_score score :
  score = wratio E (py "abcd") (py "abxy") ->
  (score == 50)%Q ->
  Text.find_best_match E (py "abcd") [py "abxy"] (6 # 10)
  = (None, (score / 100)%Q)
  /\ ~ (score / 100 == 0)%Q.
Proof.
  intros Hscore H50. split.
  - apply find_best_match_below with (choice := py "abxy") (index := 0).
    + discriminate.
    + assert (Hq : Text.normalize_text E (py "abcd") = py "abcd")
        by (vm_compute; reflexivity).
      assert (Hc : Text.normalize_text E (py "abxy") = py "abxy")
        by (vm_compute; reflexivity).
      cbn [map]. rewrite Hq, Hc.
      unfold Text.extractOne. cbn [Text.extract_one_from]. now rewrite Hscore.
    + unfold Qltb. apply negb_true_iff.
      destruct (Qle_bool (6 # 10) (score / 100)) eqn:Hle; [|reflexivity].
      apply Qle_bool_iff in Hle. rewrite H50 in Hle.
      exfalso. revert Hle. apply Qlt_not_le. reflexivity.
  - rewrite H50. discriminate.
Qed.
End BestMatch.

(** ** The empty message *)

(** C8. For the empty text and any menu the pipeline returns, without
    raising, a result with no cart line, no pendency and confidence 1. *)
Theorem empty_text_empty_result (E : externals) (menu : list MenuEntry.t) :
  exists r,
    Pipeline.interpret E (py "") menu = Ok r
    /\ InterpretedOrder.items r = []
    /\ pendencies r = []
    /\ (confidence r == 1)%Q
    /\ raw_text r = py "".
Proof.
  unfold Pipeline.interpret. simpl.
  unfold Matcher.match_items.
  destruct (Matcher._build_menu_index menu) as [products abp].
  simpl. rewrite order_validate_ok.
  eexists. split; [reflexivity |]. simpl. repeat split.
Qed.

(** ** The segmenter *)

Section Segmenter.
Variable E : externals.

Lemma contains_newline text :
  contains [0x0A%N] text = true <-> In 0x0A%N text.
Proof.
  induction text as [|c text IH].
  - split; [discriminate | contradiction].
  - cbn [contains prefix_b In].
    rewrite orb_true_iff, andb_true_r, IH, N.eqb_eq. intuition.
Qed.

Lemma cut_context_with_newline text :
  In 0x0A%N text -> Parser._cut_context E text = text.
Proof.
  intros Hnl. unfold Parser._cut_context.
  change (py (String "010" EmptyString)) with [0x0A%N].
  apply contains_newline in Hnl. now rewrite Hnl.
Qed.

Lemma cut_context_changes_without_newline text :
  Parser._cut_context E text <> text -> ~ In 0x0A%N text.
Proof.
  intros Hne Hnl. apply Hne. now apply cut_context_with_newline.
Qed.

(** C10. The cutoff at the first address or payment marker is applied only
    to a text without a newline: a text with a newline goes as it is to the
    split into lines, where the per-line classifier is the only thing that
    drops context. *)
Theorem cutoff_only_without_newline text :
  In 0x0A%N text ->
  Parser._cut_context E text = text
  /\ Parser.parse_order_text E text
     = Parser.parse_segments E (Parser._split_segments E text).
Proof.
  intros Hnl.
  pose proof (cut_context_with_newline text Hnl) as Hcut.
  split; [exact Hcut |].
  unfold Parser.parse_order_text.
  destruct text; [contradiction |]. now rewrite Hcut.
Qed.

Lemma int_of_digits_nonneg s : (0 <= int_of_digits E s)%Z.
Proof.
  unfold int_of_digits.
  assert (H : forall acc, (0 <= acc)%Z ->
            (0 <= fold_left
                    (fun acc c =>
                       (acc * 10 + Z.of_N (default 0%N (digit_value E c)))%Z) s acc)%Z).
  { induction s as [|c s IH]; intros acc Hacc; simpl; [assumption |].
    apply IH. lia. }
  now apply H.
Qed.

(** Where the quantity of a parsed segment comes from: the leading digit
    run, else the leading number word, else 1. *)
Lemma parse_segment_quantity segment item :
  Parser._parse_segment E segment = Ok (Some item) ->
  match re_match E true Parser._SEGMENT_RE (strip segment) with
  | Some m =>
      quantity item = int_of_digits E (group (strip segment) m 1)
      /\ (0 <= quantity item)%Z
  | None =>
      match re_match E true Parser._WORD_QTY_RE (strip segment) with
      | Some word_match =>
          Text.parse_quantity E (group (strip segment) word_match 1)
          = Ok (quantity item)
      | None => quantity item = 1%Z
      end
  end.
Proof.
  unfold Parser._parse_segment.
  destruct (re_match E true Parser._SEGMENT_RE (strip segment)) as [m|].
  - cbn [rbind].
    destruct (Parser._extract_notes E _) as [notes desc].
    destruct (Parser._extract_removals E _) as [desc' removals].
    destruct (Parser.found (re_search E true Parser.com_re desc')).
    + destruct (re_split E true Parser.com_re 1 desc') as [|a [|b [|c l]]];
        cbn [rbind]; try discriminate.
      intros [= <-]. cbn [quantity]. split; [reflexivity |].
      apply int_of_digits_nonneg.
    + cbn [rbind]. intros [= <-]. cbn [quantity]. split; [reflexivity |].
      apply int_of_digits_nonneg.
  - destruct (re_match E true Parser._WORD_QTY_RE (strip segment)) as [wm|].
    + destruct (Text.parse_quantity E _) as [q|e]; cbn [rbind]; [|discriminate].
      destruct (Parser._extract_notes E _) as [notes desc].
      destruct (Parser._extract_removals E _) as [desc' removals].
      destruct (Parser.found (re_search E true Parser.com_re desc')).
      * destruct (re_split E true Parser.com_re 1 desc') as [|a [|b [|c l]]];
          cbn [rbind]; try discriminate.
        now intros [= <-].
      * cbn [rbind]. now intros [= <-].
    + cbn [rbind].
      destruct (Parser._extract_notes E _) as [notes desc].
      destruct (Parser._extract_removals E _) as [desc' removals].
      destruct (Parser.found (re_search E true Parser.com_re desc')).
      * destruct (re_split E true Parser.com_re 1 desc') as [|a [|b [|c l]]];
          cbn [rbind]; try discriminate.
        now intros [= <-].
      * cbn [rbind]. now intros [= <-].
Qed.

(** The classifier of the claim C4: a greeting, or a keyword and no
    quantity marker; a quantity marker is an item start of the segmenter. *)
Definition claimed_context_line (text : str) : bool :=
  Parser.found (re_match E true Parser._GREETING_RE text)
  || (Parser.found (re_search E true Parser._CONTEXT_RE text)
      && negb (Parser.found (re_search E true Parser._ITEM_START_RE text))).

(** C4, as the code has it. A line is dropped as context exactly when it is
    a greeting or contains one of the address and payment keywords. A
    quantity marker changes nothing: the classifier of the code is the one
    of the claim plus the lines that have both a keyword and a quantity
    marker. And every segment the segmenter returns comes from a line that,
    once its metadata is stripped, is neither a greeting nor has a keyword. *)
Theorem context_line_ignores_quantity line text :
  (Parser._is_context_line E line = true
   <-> Parser.found (re_match E true Parser._GREETING_RE line) = true
       \/ Parser.found (re_search E true Parser._CONTEXT_RE line) = true)
  /\ Parser._is_context_line E line
     = claimed_context_line line
       || (Parser.found (re_search E true Parser._CONTEXT_RE line)
           && Parser.found (re_search E true Parser._ITEM_START_RE line))
  /\ forall segment,
       In segment (Parser._split_segments E text) ->
       exists raw_line,
         In raw_line (splitlines text)
         /\ Parser._is_context_line E (Parser._strip_metadata E (strip raw_line))
            = false.
Proof.
  split; [|split].
  - unfold Parser._is_context_line.
    destruct (Parser.found (re_match E true Parser._GREETING_RE line));
      destruct (Parser.found (re_search E true Parser._CONTEXT_RE line));
      intuition discriminate.
  - unfold Parser._is_context_line, claimed_context_line.
    destruct (Parser.found (re_match E true Parser._GREETING_RE line));
      destruct (Parser.found (re_search E true Parser._CONTEXT_RE line));
      destruct (Parser.found (re_search E true Parser._ITEM_START_RE line));
      reflexivity.
  - intros segment Hseg. unfold Parser._split_segments in Hseg.
    apply in_flat_map in Hseg as (stripped & Hline & Hin).
    apply in_map_iff in Hline as (raw_line & <- & Hraw).
    apply list_elem_of_In, list_elem_of_filter in Hraw as [_ Hraw].
    apply list_elem_of_In in Hraw.
    exists raw_line. split; [exact Hraw |].
    destruct (Parser._is_context_line E (Parser._strip_metadata E (strip raw_line)));
      [|reflexivity].
    rewrite orb_true_r in Hin. contradiction.
Qed.
End Segmenter.

(** C4, counterexample. The line has a keyword (pix) and a quantity marker
    (the leading 2): the segmenter drops it, and the order with it, where the
    claim keeps it. *)
Lemma keyword_line_with_quantity_is_dropped :
  Parser._is_context_line sample_env (py "2 coca pix") = true
  /\ claimed_context_line sample_env (py "2 coca pix") = false
  /\ Parser.parse_order_text sample_env (py "2 coca pix") = Ok [].
Proof. vm_compute. auto. Qed.

(** C5, at the failing input. A segment that starts with the digit 0 is
    parsed into an item of quantity 0, whatever the libraries. *)
Theorem zero_quantity_is_parsed (E : externals) :
  Parser.parse_order_text E (py "0 coca")
  = Ok [ {| raw := py "0 coca"; quantity := 0; name := py "coca";
            additions := []; removals := []; notes := [];
            is_additional_only := false; size_hint := None;
            match_text := py "coca" |} ].
Proof. vm_compute. reflexivity. Qed.

(** ** The resolver *)

Section ResolverProps.
Variable E : externals.

Lemma dedupe_loop_spec items seen result :
  (forall x, x ∈ seen <-> x ∈ result) ->
  NoDup result ->
  NoDup (Resolver.dedupe_loop items seen result)
  /\ forall x, x ∈ Resolver.dedupe_loop items seen result <-> x ∈ result \/ x ∈ items.
Proof.
  revert seen result.
  induction items as [|item items IH]; intros seen result Hseen Hnd; simpl.
  - split; [assumption |]. intros x. rewrite elem_of_nil. tauto.
  - destruct (bool_decide (item ∈ seen)) eqn:Hin.
    + apply bool_decide_eq_true in Hin.
      destruct (IH seen result Hseen Hnd) as [Hnd' Hel]. split; [assumption |].
      intros x. rewrite Hel, elem_of_cons.
      split; [tauto |]. intros [H | [-> | H]]; auto.
      left. now apply Hseen.
    + apply bool_decide_eq_false in Hin.
      destruct (IH ({[item]} ∪ seen) (result ++ [item])) as [Hnd' Hel].
      * intros x. rewrite elem_of_union, elem_of_singleton, elem_of_app,
          list_elem_of_singleton, Hseen. tauto.
      * apply NoDup_app. split; [assumption |]. split; [|apply NoDup_singleton].
        intros x Hx. rewrite list_elem_of_singleton. intros ->.
        apply Hin. now apply Hseen.
      * split; [assumption |].
        intros x. rewrite Hel, elem_of_app, list_elem_of_singleton, elem_of_cons.
        tauto.
Qed.

(** [_dedupe] returns the strings of its argument, each once. *)
Lemma dedupe_NoDup items :
  NoDup (Resolver._dedupe items)
  /\ forall x, x ∈ Resolver._dedupe items <-> x ∈ items.
Proof.
  unfold Resolver._dedupe.
  destruct (dedupe_loop_spec items ∅ []) as [Hnd Hel].
  - intros x. rewrite elem_of_nil. set_solver.
  - constructor.
  - split; [assumption |]. intros x. rewrite Hel, elem_of_nil. tauto.
Qed.

Ltac split_ifs :=
  repeat match goal with
         | |- context [if ?c then _ else _] => destruct c
         end.

(** The fields [_resolve_item] never assigns. *)
Lemma resolve_fields_frame it :
  raw (Resolver.resolve_fields E it) = raw it
  /\ quantity (Resolver.resolve_fields E it) = quantity it
  /\ name (Resolver.resolve_fields E it) = name it
  /\ notes (Resolver.resolve_fields E it) = notes it
  /\ is_additional_only (Resolver.resolve_fields E it) = is_additional_only it.
Proof.
  unfold Resolver.resolve_fields.
  destruct (contains (py "careca") _);
    match goal with
    | |- context [if ?c && ?d then _ else _] => destruct (c && d)
    end;
    repeat split; reflexivity.
Qed.

(** The removals and the additions [_resolve_item] leaves in the item. *)
Lemma resolve_fields_lists it :
  exists extra,
    (extra = [] \/ extra = [py "salada geral"])
    /\ removals (Resolver.resolve_fields E it)
       = Resolver._dedupe (Resolver.normalize_removals E (removals it ++ extra))
    /\ (ParsedItem.additions (Resolver.resolve_fields E it)
        = map (Text.normalize_text E)
            (filter (fun a => Parser.nonempty a = true) (ParsedItem.additions it))
        \/ ParsedItem.additions (Resolver.resolve_fields E it) = []).
Proof.
  unfold Resolver.resolve_fields.
  destruct (contains (py "careca") _).
  - exists [py "salada geral"].
    match goal with
    | |- context [if ?c && ?d then _ else _] => destruct (c && d)
    end; simpl; auto.
  - exists []. rewrite app_nil_r.
    match goal with
    | |- context [if ?c && ?d then _ else _] => destruct (c && d)
    end; simpl; auto.
Qed.


(** The loop returns the references it was given and updates the objects
    they point to. *)
Lemma resolve_loop_spec (items resolved : list ref) (h : store) :
  fst (Resolver.resolve_loop E items resolved h) = resolved ++ items
  /\ snd (Resolver.resolve_loop E items resolved h)
     = foldl (fun h item => alter (Resolver.resolve_fields E) item h) h items.
Proof.
  revert resolved h.
  induction items as [|item items IH]; intros resolved h; simpl.
  - now rewrite app_nil_r.
  - destruct (IH (resolved ++ [item]) (alter (Resolver.resolve_fields E) item h))
      as [H1 H2].
    rewrite H1, H2, <- app_assoc. auto.
Qed.


End ResolverProps.

(** * The properties on a sample menu *)

Module Sample.
Import MenuEntry.

Definition burger : MenuEntry.t :=
  {| pdv := py "100"; parent_pdv := None; nome_original := py "X Burguer";
     price := Some (20 # 1); item_type := py "product";
     fingerprint := Some (py "xburguer") |}.

Definition bacon : MenuEntry.t :=
  {| pdv := py "200"; parent_pdv := Some (py "100");
     nome_original := py "Adicionais Bacon";
     price := Some (3 # 1); item_type := py "addition";
     fingerprint := Some (py "adicionaisbacon") |}.

Definition coca : MenuEntry.t :=
  {| pdv := py "300"; parent_pdv := None; nome_original := py "Coca Cola";
     price := Some (6 # 1); item_type := py "product";
     fingerprint := Some (py "cocacola") |}.

Definition menu : list MenuEntry.t := [burger; bacon; coca].

(** The resolved item of the line [n x burguer com bacon e abacaxi]. *)
Definition burger_line (n : Z) (text : string) : ParsedItem :=
  {| raw := py text; quantity := n; name := py "x burguer";
     additions := [py "bacon"; py "abacaxi"]; removals := []; notes := [];
     is_additional_only := false; size_hint := None;
     match_text := py "x burguer" |}.

Definition two_burgers : ParsedItem :=
  burger_line 2 "2 x burguer com bacon e abacaxi".

Definition too_many_burgers : ParsedItem :=
  burger_line 51 "51 x burguer com bacon e abacaxi".




(** A message of two lines, the second one about the delivery. *)
Definition two_lines : str :=
  py "1 x burguer" ++ [0x0A%N] ++ py "entrega na rua A".


Lemma two_burgers_parsed :
  Parser.parse_order_text sample_env (py "2 x burguer com bacon e abacaxi")
  = Ok [two_burgers]
  /\ Resolver.resolve_fields sample_env two_burgers = two_burgers.
Proof. vm_compute. auto. Qed.

Lemma too_many_burgers_parsed :
  Parser.parse_order_text sample_env (py "51 x burguer com bacon e abacaxi")
  = Ok [too_many_burgers]
  /\ Resolver.resolve_fields sample_env too_many_burgers = too_many_burgers.
Proof. vm_compute. auto. Qed.
End Sample.




Lemma find_best_match_keeps_low_score_witness :
  Text.find_best_match sample_env (py "abcd") [py "abxy"] (6 # 10)
  = (None, (wratio sample_env (py "abcd") (py "abxy") / 100)%Q)
  /\ ~ (wratio sample_env (py "abcd") (py "abxy") / 100 == 0)%Q.
Proof.
  apply (find_best_match_keeps_low_score sample_env
           (wratio sample_env (py "abcd") (py "abxy"))).
  - reflexivity.
  - vm_compute. reflexivity.
Defined.


Lemma cutoff_only_without_newline_witness :
  In 0x0A%N Sample.two_lines
  /\ Parser._cut_context sample_env Sample.two_lines = Sample.two_lines
  /\ Parser.parse_order_text sample_env Sample.two_lines
     = Parser.parse_segments sample_env
         (Parser._split_segments sample_env Sample.two_lines).
Proof.
  assert (Hnl : In 0x0A%N Sample.two_lines) by (vm_compute; tauto).
  split; [exact Hnl |].
  apply (cutoff_only_without_newline sample_env Sample.two_lines Hnl).
Defined.

(** Without a newline the same words are cut at the marker. *)
Lemma cutoff_applies_on_one_line :
  Parser._cut_context sample_env (py "1 x burguer entrega na rua A")
  = py "1 x burguer".
Proof. vm_compute. reflexivity. Qed.

(** C5: downstream, the cart line of the parsed quantity 0 fails the
    validation of CartItem (at least 1), so the pipeline raises. *)
Lemma zero_quantity_breaks_matcher :
  Pipeline.interpret sample_env (py "0 coca") Sample.menu = Raise ValidationError.
Proof. vm_compute. reflexivity. Qed.



(** * Further properties of the matcher *)

Section MenuIndex.
Import MenuEntry.

Lemma product_is_not_addition : py "product" <> py "addition".
Proof. vm_compute. discriminate. Qed.

Lemma build_menu_loop_spec (menu products : list MenuEntry.t)
  (abp : gmap (option str) (list MenuEntry.t)) :
  fst (Matcher.build_menu_loop menu products abp)
  = products ++ filter (fun e => item_type e = py "product") menu
  /\ forall k,
       snd (Matcher.build_menu_loop menu products abp) !! k
       = match abp !! k,
               filter (fun e => item_type e = py "addition" /\ parent_pdv e = k) menu
         with
         | Some l, found => Some (l ++ found)
         | None, [] => None
         | None, found => Some found
         end.
Proof.
  revert products abp.
  induction menu as [|entry menu IH]; intros products abp.
  - simpl. rewrite app_nil_r. split; [reflexivity |].
    intros k. destruct (abp !! k); [now rewrite app_nil_r | reflexivity].
  - cbn [Matcher.build_menu_loop]. unfold str_eqb.
    destruct (bool_decide (item_type entry = py "product")) eqn:Hp.
    + apply bool_decide_eq_true in Hp.
      destruct (IH (products ++ [entry]) abp) as [H1 H2].
      rewrite H1, filter_cons. case_decide; [|contradiction].
      split; [now rewrite <- app_assoc |].
      intros k. rewrite H2, filter_cons.
      case_decide as Hk; [|reflexivity].
      destruct Hk as [Ha _]. rewrite Hp in Ha.
      now apply product_is_not_addition in Ha.
    + apply bool_decide_eq_false in Hp.
      destruct (bool_decide (item_type entry = py "addition")) eqn:Ha.
      * apply bool_decide_eq_true in Ha.
        destruct (IH products
                    (<[parent_pdv entry :=
                         default [] (abp !! parent_pdv entry) ++ [entry]]> abp))
          as [H1 H2].
        rewrite H1, filter_cons. case_decide; [contradiction |].
        split; [reflexivity |].
        intros k. rewrite H2, filter_cons.
        destruct (decide (parent_pdv entry = k)) as [<-|Hne].
        -- rewrite lookup_insert_eq.
           case_decide as Hk; [|exfalso; apply Hk; auto].
           destruct (abp !! parent_pdv entry) as [l|]; simpl.
           ++ now rewrite <- app_assoc.
           ++ reflexivity.
        -- rewrite lookup_insert_ne by assumption.
           case_decide as Hk; [destruct Hk; contradiction | reflexivity].
      * apply bool_decide_eq_false in Ha.
        destruct (IH products abp) as [H1 H2].
        rewrite H1, filter_cons. case_decide; [contradiction |].
        split; [reflexivity |].
        intros k. rewrite H2, filter_cons.
        case_decide as Hk; [destruct Hk; contradiction | reflexivity].
Qed.

Lemma build_menu_index_products (menu : list MenuEntry.t) :
  fst (Matcher._build_menu_index menu)
  = filter (fun e => item_type e = py "product") menu.
Proof.
  unfold Matcher._build_menu_index.
  now destruct (build_menu_loop_spec menu [] ∅) as [H1 _].
Qed.

(** X1. The index of the menu: the products are the entries of type product,
    in the order of the menu; the additions of a parent are the entries
    of type addition with that parent, in the order of the menu, and a
    parent without any has no key. Entries of any other type are ignored. *)
Theorem build_menu_index_spec (menu : list MenuEntry.t) :
  fst (Matcher._build_menu_index menu)
  = filter (fun e => item_type e = py "product") menu
  /\ forall k,
       snd (Matcher._build_menu_index menu) !! k
       = match filter (fun e => item_type e = py "addition" /\ parent_pdv e = k) menu
         with
         | [] => None
         | found => Some found
         end.
Proof.
  unfold Matcher._build_menu_index.
  destruct (build_menu_loop_spec menu [] ∅) as [H1 H2].
  split; [exact H1 |].
  intros k. rewrite H2, lookup_empty. reflexivity.
Qed.
End MenuIndex.


Section ProductFilters.
Variable E : externals.
Import MenuEntry.

Lemma filter_is_sublist {A} (P : A -> Prop) `{forall x, Decision (P x)} (l : list A) :
  filter P l `sublist_of` l.
Proof.
  induction l as [|x l IH]; [constructor |].
  rewrite filter_cons. case_decide; now constructor.
Qed.

Lemma sublist_In {A} (l k : list A) x : l `sublist_of` k -> In x l -> In x k.
Proof.
  induction 1 as [|y l k _ IH|y l k _ IH]; simpl; intuition.
Qed.

Lemma or_all_sublist {A} (filtered all : list A) :
  filtered `sublist_of` all -> Matcher.or_all filtered all `sublist_of` all.
Proof. intros H. destruct filtered; [reflexivity | exact H]. Qed.



Lemma filter_by_size_hint_sublist (products : list MenuEntry.t) (size_hint : str) :
  Matcher._filter_by_size_hint E products size_hint `sublist_of` products.
Proof. apply or_all_sublist, filter_is_sublist. Qed.

Lemma filter_plain_batata_sublist (products : list MenuEntry.t) :
  Matcher._filter_plain_batata E products `sublist_of` products.
Proof. apply or_all_sublist, filter_is_sublist. Qed.

End ProductFilters.

Section CartLines.
Variable E : externals.
Import MenuEntry.

Lemma best_match_in query (products : list MenuEntry.t) p :
  Matcher._best_match E query products = Some p -> In p products.
Proof.
  unfold Matcher._best_match, Matcher.first_entry.
  destruct products as [|p0 ps]; [discriminate |].
  destruct (fst _) as [[|c name]|]; try discriminate.
  intros H. now apply find_some in H.
Qed.

Lemma by_size_hint_sublist item (products : list MenuEntry.t) :
  Matcher.by_size_hint E item products `sublist_of` products.
Proof.
  unfold Matcher.by_size_hint.
  destruct (Matcher.truthy (size_hint item)); [|reflexivity].
  apply filter_by_size_hint_sublist.
Qed.

(** The product matched for an item is one of the products given. *)
Lemma match_product_in item (products : list MenuEntry.t) p :
  Matcher._match_product E item products = Some p -> In p products.
Proof.
  unfold Matcher._match_product.
  destruct (filter _ products) as [|x [|y l]] eqn:Hexact.
  2: { intros [= <-].
       assert (Hin : x ∈ filter
                 (fun p => fingerprint p
                           = Some (Text.make_fingerprint E (Matcher.query_of item)))
                 products) by (rewrite Hexact; left).
       apply list_elem_of_filter in Hin as [_ Hin]. now apply list_elem_of_In. }
  all: repeat
         match goal with
         | |- context [match filter ?P ?l with _ => _ end] =>
             let H := fresh "Hf" in
             pose proof (filter_is_sublist P l) as H;
             destruct (filter P l)
         | |- context [match Matcher._best_match E ?q ?l with _ => _ end] =>
             let H := fresh "Hb" in
             destruct (Matcher._best_match E q l) eqn:H
         | |- context [if ?c then _ else _] => destruct c
         end;
    try discriminate;
    intros Hp;
    repeat match goal with
           | H : Some _ = Some _ |- _ => injection H as ->
           end;
    try (injection Hp as <-);
    repeat match goal with
           | H : Matcher._best_match E _ _ = Some _ |- _ => apply best_match_in in H
           end;
    try assumption.
  all: repeat match goal with
       | H : In _ (Matcher.by_size_hint E ?i ?l) |- _ =>
           apply (sublist_In _ _ _ (by_size_hint_sublist i l)) in H
       | H : In _ (Matcher._filter_plain_batata E ?l) |- _ =>
           apply (sublist_In _ _ _ (filter_plain_batata_sublist E l)) in H
       | H : In _ (Matcher._filter_by_size_hint E ?l ?h) |- _ =>
           apply (sublist_In _ _ _ (filter_by_size_hint_sublist E l h)) in H
       | H : In _ ?l, S : ?l `sublist_of` _ |- _ =>
           apply (sublist_In _ _ _ S) in H
       end; try assumption.
Qed.



Lemma quantidade_is_not_produto_base : py "produto_base" <> py "quantidade".
Proof. vm_compute. discriminate. Qed.

(** A pendency about a whole line records the quantity of the line; the
    pendency of an addition records the base product instead. *)
Definition line_level (p : CartPendency.t) : Prop :=
  is_Some (CartPendency.dados_extras p !! py "quantidade").

(** Whether [match_items] builds a cart line for the item. *)
Definition matched (products : list MenuEntry.t) (item : ParsedItem) : bool :=
  negb (is_additional_only item)
  && match Matcher._match_product E item products with
     | Some _ => true
     | None => false
     end.

(** The cart line [line] was built for [item]. *)
Definition line_of (products : list MenuEntry.t) (line : CartItem.t)
  (item : ParsedItem) : Prop :=
  is_additional_only item = false
  /\ exists product adicionais,
       Matcher._match_product E item products = Some product
       /\ Forall
            (fun a =>
               CartItemAddition.quantidade a = 1%Z
               /\ (0 <= CartItemAddition.preco_unitario a)%Q)
            adicionais
       /\ CartItem.validate (pdv product) (nome_original product) (quantity item)
            (Matcher._to_decimal (price product)) adicionais
            (Matcher._build_observacoes item)
          = Ok line.

Lemma match_additions_loop_facts texts additions product results pendencies rs ps :
  Matcher.match_additions_loop E texts additions product results pendencies
  = Ok (rs, ps) ->
  exists new_adds new_pends,
    rs = results ++ new_adds
    /\ ps = pendencies ++ new_pends
    /\ Forall
         (fun a =>
            CartItemAddition.quantidade a = 1%Z
            /\ (0 <= CartItemAddition.preco_unitario a)%Q)
         new_adds
    /\ Forall (fun p => ~ line_level p) new_pends.
Proof.
  revert results pendencies.
  induction texts as [|text texts IH]; intros results pendencies; simpl.
  - intros [= <- <-]. exists [], []. rewrite !app_nil_r. auto.
  - destruct (Matcher._match_addition E text additions) as [m|].
    + unfold CartItemAddition.validate at 1.
      destruct (_ && _) eqn:Hv; simpl; [|discriminate].
      intros H. apply IH in H as (na & np & -> & -> & Ha & Hp).
      eexists (_ :: na), np. rewrite <- app_assoc. simpl.
      repeat split; auto.
      constructor; [|assumption]. simpl. split; [reflexivity |].
      apply andb_true_iff in Hv as [_ Hv]. now apply Qle_bool_iff.
    + unfold CartPendency.validate at 1.
      destruct (_ <=? _); simpl; [|discriminate].
      intros H. apply IH in H as (na & np & -> & -> & Ha & Hp).
      eexists na, (_ :: np). rewrite <- app_assoc. simpl.
      repeat split; auto.
      constructor; [|assumption]. unfold line_level. simpl.
      rewrite lookup_insert_ne by apply quantidade_is_not_produto_base.
      rewrite lookup_empty. now intros [? ?].
Qed.

Lemma filter_matched_cons products item items :
  filter (fun it => matched products it = true) (item :: items)
  = if matched products item
    then item :: filter (fun it => matched products it = true) items
    else filter (fun it => matched products it = true) items.
Proof.
  rewrite filter_cons. destruct (matched products item); reflexivity.
Qed.

Lemma filter_unmatched_cons products item items :
  filter (fun it => matched products it = false) (item :: items)
  = if matched products item
    then filter (fun it => matched products it = false) items
    else item :: filter (fun it => matched products it = false) items.
Proof.
  rewrite filter_cons. destruct (matched products item); reflexivity.
Qed.

Lemma filter_line_level_app (l k : list CartPendency.t) :
  filter line_level (l ++ k) = filter line_level l ++ filter line_level k.
Proof. apply filter_app. Qed.

Lemma filter_line_level_none (l : list CartPendency.t) :
  Forall (fun p => ~ line_level p) l -> filter line_level l = [].
Proof.
  induction 1 as [|p l Hp _ IH]; [reflexivity |].
  rewrite filter_cons. case_decide; [contradiction | exact IH].
Qed.

(** What the loop of [match_items] adds to its two lists: a cart line for
    every matched item and a line pendency for every other item, both in
    the order of the items, and between them the pendencies of additions. *)
Lemma match_loop_facts items products abp interpreted pendencies its ps :
  Matcher.match_loop E items products abp interpreted pendencies = Ok (its, ps) ->
  exists new_lines new_pends,
    its = interpreted ++ new_lines
    /\ ps = pendencies ++ new_pends
    /\ Forall2 (line_of products) new_lines
         (filter (fun it => matched products it = true) items)
    /\ map CartPendency.texto_original (filter line_level new_pends)
       = map raw (filter (fun it => matched products it = false) items).
Proof.
  revert interpreted pendencies.
  induction items as [|item items IH]; intros interpreted pendencies.
  - simpl. intros [= <- <-]. exists [], []. rewrite !app_nil_r.
    repeat split; constructor.
  - cbn [Matcher.match_loop].
    rewrite filter_matched_cons, filter_unmatched_cons.
    destruct (is_additional_only item) eqn:Hadd.
    { assert (Hm : matched products item = false)
        by (unfold matched; now rewrite Hadd).
      rewrite Hm.
      unfold Matcher._pendency_for_additional_only, CartPendency.validate.
      destruct (_ <=? _); cbn [rbind]; [|discriminate].
      intros H. apply IH in H as (nl & np & -> & -> & Hl & Hp).
      eexists nl, (_ :: np). rewrite <- app_assoc.
      split; [reflexivity |]. split; [reflexivity |]. split; [exact Hl |].
      rewrite filter_cons. case_decide as Hll.
      - cbn [map CartPendency.texto_original]. now rewrite Hp.
      - exfalso. apply Hll. unfold line_level. simpl.
        rewrite lookup_insert_eq. eauto. }
    destruct (Matcher._match_product E item products) as [product|] eqn:Hprod.
    + assert (Hm : matched products item = true)
        by (unfold matched; now rewrite Hadd, Hprod).
      rewrite Hm.
      destruct (Matcher._match_additions E item _ pendencies product)
        as [[adds ps0]|e] eqn:Hadds; cbn [rbind]; [|discriminate].
      destruct (CartItem.validate _ _ _ _ _ _) as [cart|e] eqn:Hcart;
        cbn [rbind]; [|discriminate].
      intros H. apply IH in H as (nl & np & -> & -> & Hl & Hp).
      assert (Hfacts : exists new_pends,
                 ps0 = pendencies ++ new_pends
                 /\ Forall
                      (fun a =>
                         CartItemAddition.quantidade a = 1%Z
                         /\ (0 <= CartItemAddition.preco_unitario a)%Q) adds
                 /\ Forall (fun p => ~ line_level p) new_pends).
      { unfold Matcher._match_additions in Hadds.
        destruct (ParsedItem.additions item) as [|t ts].
        - injection Hadds as <- <-. exists []. rewrite app_nil_r. auto.
        - apply match_additions_loop_facts in Hadds
            as (na & np0 & -> & -> & Ha & Hp0).
          exists np0. auto. }
      destruct Hfacts as (np0 & -> & Ha & Hp0).
      exists (cart :: nl), (np0 ++ np). rewrite <- !app_assoc.
      split; [reflexivity |]. split; [reflexivity |].
      split.
      * constructor; [|exact Hl].
        split; [exact Hadd |]. exists product, adds. auto.
      * rewrite filter_line_level_app, filter_line_level_none by assumption.
        exact Hp.
    + assert (Hm : matched products item = false)
        by (unfold matched; now rewrite Hadd, Hprod).
      rewrite Hm.
      unfold Matcher._pendency_for_missing_product, CartPendency.validate.
      destruct (_ <=? _); cbn [rbind]; [|discriminate].
      intros H. apply IH in H as (nl & np & -> & -> & Hl & Hp).
      eexists nl, (_ :: np). rewrite <- app_assoc.
      split; [reflexivity |]. split; [reflexivity |]. split; [exact Hl |].
      rewrite filter_cons. case_decide as Hll.
      * cbn [map CartPendency.texto_original]. now rewrite Hp.
      * exfalso. apply Hll. unfold line_level. simpl.
        rewrite lookup_insert_eq. eauto.
Qed.


Lemma cart_item_validate_inv pdv nome quantidade preco adicionais observacoes line :
  CartItem.validate pdv nome quantidade preco adicionais observacoes = Ok line ->
  line
  = CartItem.mk pdv nome quantidade preco adicionais observacoes
      (Some (preco + CartItem.adicionais_total adicionais)%Q)
      (Some ((preco + CartItem.adicionais_total adicionais) * inject_Z quantidade)%Q)
  /\ (1 <= quantidade <= 50)%Z
  /\ (0 <= preco)%Q
  /\ length observacoes <= 500.
Proof.
  unfold CartItem.validate.
  destruct (_ && _) eqn:Hv; [|discriminate].
  intros [= <-].
  apply andb_true_iff in Hv as [Hv Hobs].
  apply andb_true_iff in Hv as [Hv Hp].
  apply andb_true_iff in Hv as [Hq1 Hq2].
  apply Z.leb_le in Hq1, Hq2. apply Qle_bool_iff in Hp. apply Nat.leb_le in Hobs.
  auto.
Qed.

Lemma filter_partition_length products (items : list ParsedItem) :
  length (filter (fun it => matched products it = true) items)
  + length (filter (fun it => matched products it = false) items)
  = length items.
Proof.
  induction items as [|item items IH]; [reflexivity |].
  rewrite filter_matched_cons, filter_unmatched_cons.
  destruct (matched products item); simpl; lia.
Qed.

(** X3. No line of the order is lost. Of a result of [match_items], the cart
    lines are the matched items, in their order and with their quantities;
    the pendencies about a whole line are the other items, in their order
    and with their raw text; the two together are as many as the items. *)
Theorem every_line_is_accounted_for items menu raw_text r :
  Matcher.match_items E items menu raw_text = Ok r ->
  map CartItem.quantidade (InterpretedOrder.items r)
  = map quantity
      (filter (fun it => matched (fst (Matcher._build_menu_index menu)) it = true)
         items)
  /\ map CartPendency.texto_original (filter line_level (pendencies r))
     = map raw
         (filter (fun it => matched (fst (Matcher._build_menu_index menu)) it = false)
            items)
  /\ length (InterpretedOrder.items r) + length (filter line_level (pendencies r))
     = length items.
Proof.
  intros H. apply match_items_inv in H as (products & abp & Hidx & Hloop & _ & _).
  rewrite Hidx. cbn [fst].
  apply match_loop_facts in Hloop as (nl & np & Hl & Hp & Hlines & Htexts).
  simpl in Hl, Hp. rewrite Hl, Hp in *. clear Hl Hp.
  assert (Hq : map CartItem.quantidade nl
               = map quantity (filter (fun it => matched products it = true) items)).
  { induction Hlines as [|line item nl its Hline _ IH]; [reflexivity |].
    simpl. rewrite IH. f_equal.
    destruct Hline as (_ & product & adds & _ & _ & Hv).
    apply cart_item_validate_inv in Hv as [-> _]. reflexivity. }
  split; [exact Hq |]. split; [exact Htexts |].
  rewrite <- (filter_partition_length products items).
  rewrite <- (length_map CartItem.quantidade nl), Hq, length_map.
  rewrite <- (length_map CartPendency.texto_original), Htexts, length_map.
  reflexivity.
Qed.

(** X4. The cart lines of a result are built from the menu: each is the line
    of an item that is not additive-only, with the code, the name and the
    price of an entry of the menu of type product matched for that item,
    the quantity of the item and its notes. *)
Theorem cart_lines_come_from_menu items menu raw_text r :
  Matcher.match_items E items menu raw_text = Ok r ->
  Forall
    (fun line =>
       exists item product,
         In item items
         /\ is_additional_only item = false
         /\ In product menu
         /\ item_type product = py "product"
         /\ CartItem.pdv line = pdv product
         /\ CartItem.nome line = nome_original product
         /\ CartItem.preco_unitario line = Matcher._to_decimal (price product)
         /\ CartItem.quantidade line = quantity item
         /\ CartItem.observacoes line = Matcher._build_observacoes item)
    (InterpretedOrder.items r).
Proof.
  intros H. apply match_items_inv in H as (products & abp & Hidx & Hloop & _ & _).
  apply match_loop_facts in Hloop as (nl & np & Hl & _ & Hlines & _).
  simpl in Hl. rewrite Hl. clear Hl.
  assert (Hprod : products = filter (fun e => item_type e = py "product") menu).
  { rewrite <- (build_menu_index_products menu). now rewrite Hidx. }
  revert Hlines.
  generalize (filter (fun it => matched products it = true) items)
    (filter_is_sublist (fun it => matched products it = true) items).
  intros its Hsub Hlines.
  induction Hlines as [|line item nl its' Hline _ IH]; [constructor |].
  constructor.
  - destruct Hline as (Hadd & product & adds & Hm & _ & Hv).
    apply cart_item_validate_inv in Hv as [-> _].
    exists item, product. simpl.
    apply match_product_in in Hm. rewrite Hprod in Hm.
    apply list_elem_of_In, list_elem_of_filter in Hm as [Htype Hin].
    apply list_elem_of_In in Hin.
    repeat split; auto.
    eapply sublist_In; [exact Hsub | now left].
  - apply IH. etransitivity; [|exact Hsub]. now constructor.
Qed.





(** The pendency of a line without a product, on a menu without products:
    no suggestion can be made. *)
Definition unmatched_pendency (item : ParsedItem) : CartPendency.t :=
  if is_additional_only item
  then
    CartPendency.mk ADICIONAL_NAO_ENCONTRADO (raw item) []
      (<[py "quantidade" := VInt (quantity item)]>
         (<[py "adicional" := VStr (name item)]> ∅))
  else
    CartPendency.mk PRODUTO_NAO_ENCONTRADO (raw item) []
      (<[py "quantidade" := VInt (quantity item)]> ∅).

Lemma match_loop_no_products items abp interpreted pendencies :
  Matcher.match_loop E items [] abp interpreted pendencies
  = Ok (interpreted, pendencies ++ map unmatched_pendency items).
Proof.
  revert pendencies.
  induction items as [|item items IH]; intros pendencies; simpl.
  - now rewrite app_nil_r.
  - unfold unmatched_pendency at 1.
    destruct (is_additional_only item).
    + cbn. rewrite IH. now rewrite <- app_assoc.
    + destruct (Matcher._match_product E item []) as [p|] eqn:Hp.
      { apply match_product_in in Hp. contradiction. }
      cbn. rewrite IH. now rewrite <- app_assoc.
Qed.

(** X6. A menu without any entry of type product is no error: every item
    becomes one pendency, in the order of the items (ADICIONAL_NAO_ENCONTRADO
    for an additive-only item, PRODUTO_NAO_ENCONTRADO for any other), without
    suggestions, and there is no cart line. *)
Theorem menu_without_products items menu raw_text :
  Forall (fun e => item_type e <> py "product") menu ->
  Matcher.match_items E items menu raw_text
  = Ok (InterpretedOrder.mk [] (map unmatched_pendency items) raw_text
          (Matcher._compute_confidence (map unmatched_pendency items))).
Proof.
  intros Hmenu. unfold Matcher.match_items.
  destruct (Matcher._build_menu_index menu) as [products abp] eqn:Hidx.
  assert (Hprod : products = []).
  { pose proof (build_menu_index_products menu) as H1. rewrite Hidx in H1.
    simpl in H1. rewrite H1. clear H1 Hidx.
    induction Hmenu as [|e menu He _ IH]; [reflexivity |].
    rewrite filter_cons. case_decide; [contradiction | exact IH]. }
  subst products. rewrite match_loop_no_products. simpl.
  apply order_validate_ok.
Qed.
End CartLines.


(** * When the matcher raises *)

Section MatcherErrors.
Variable E : externals.
Import MenuEntry.








End MatcherErrors.


(** * The fuzzy search of app/utils/text.py *)

Section FuzzySearch.
Variable E : externals.

(** The score [find_best_match] and [find_matches] give a candidate. *)
Definition score_of (query candidate : str) : Q :=
  (wratio E (Text.normalize_text E query) (Text.normalize_text E candidate) / 100)%Q.

Lemma Qltb_true a b : Qltb a b = true -> (a < b)%Q.
Proof.
  unfold Qltb. intros H. apply negb_true_iff in H.
  apply Qnot_le_lt. intros Hle. apply Qle_bool_iff in Hle. congruence.
Qed.

Lemma Qltb_false a b : Qltb a b = false -> (b <= a)%Q.
Proof.
  unfold Qltb. intros H. apply negb_false_iff in H. now apply Qle_bool_iff.
Qed.

Lemma Qdiv_100_le a b : (a <= b)%Q -> (a / 100 <= b / 100)%Q.
Proof. intros H. unfold Qdiv. apply Qmult_le_compat_r; [exact H | discriminate]. Qed.

(** The choice [extractOne] returns: a choice of the list at the index
    returned, with its score, and no choice scores higher. *)
Lemma extract_one_from_spec query choices index best c sc i :
  Text.extract_one_from E query choices index best = Some (c, sc, i) ->
  (best = Some (c, sc, i)
   \/ (index <= i /\ choices !! (i - index) = Some c /\ sc = wratio E query c))
  /\ (forall c', In c' choices -> (wratio E query c' <= sc)%Q)
  /\ (forall bc bs bi, best = Some (bc, bs, bi) -> (bs <= sc)%Q).
Proof.
  revert index best.
  induction choices as [|d choices IH]; intros index best; simpl.
  - intros ->. split; [now left |]. split; [intros c' [] |].
    intros bc bs bi [= _ <- _]. apply Qle_refl.
  - intros H. apply IH in H as (Hsrc & Hmax & Hbest).
    assert (Hd : (wratio E query d <= sc)%Q /\
                 forall bc bs bi, best = Some (bc, bs, bi) -> (bs <= sc)%Q).
    { destruct best as [[[bc bs] bi]|].
      - destruct (Qltb bs (wratio E query d)) eqn:Hlt.
        + pose proof (Hbest _ _ _ eq_refl) as Hle. split; [exact Hle |].
          intros ? ? ? [= _ <- _]. apply Qltb_true in Hlt.
          apply Qlt_le_weak in Hlt. now apply Qle_trans with (wratio E query d).
        + pose proof (Hbest _ _ _ eq_refl) as Hle. apply Qltb_false in Hlt.
          split; [now apply Qle_trans with bs |].
          now intros ? ? ? [= _ <- _].
      - split; [exact (Hbest _ _ _ eq_refl) | discriminate]. }
    destruct Hd as [Hd Hb]. split; [|split].
    + destruct Hsrc as [Hsrc | (Hi & Hl & Hs)].
      * destruct best as [[[bc bs] bi]|].
        -- destruct (Qltb bs (wratio E query d)).
           ++ injection Hsrc as <- <- <-. right.
              rewrite Nat.sub_diag. auto.
           ++ now left.
        -- injection Hsrc as <- <- <-. right. rewrite Nat.sub_diag. auto.
      * right. split; [lia |]. split; [|exact Hs].
        replace (i - index) with (S (i - S index)) by lia. exact Hl.
    + intros c' [<- | Hin]; [exact Hd | now apply Hmax].
    + exact Hb.
Qed.

(** X9. The candidate [find_best_match] returns is one of the candidates, its
    score is the score of that candidate, not below the threshold, and no
    candidate scores higher. *)
Theorem find_best_match_is_best query candidates threshold c score :
  Text.find_best_match E query candidates threshold = (Some c, score) ->
  In c candidates
  /\ score = score_of query c
  /\ (threshold <= score)%Q
  /\ forall c', In c' candidates -> (score_of query c' <= score)%Q.
Proof.
  unfold Text.find_best_match.
  destruct candidates as [|c0 cs]; [discriminate |].
  set (candidates := c0 :: cs).
  destruct (Text.extractOne E _ _) as [[[choice sc] index]|] eqn:Hone;
    [|discriminate].
  destruct (Qltb (sc / 100) threshold) eqn:Hth; [discriminate |].
  intros [= Hc <-].
  unfold Text.extractOne in Hone.
  apply extract_one_from_spec in Hone as (Hsrc & Hmax & _).
  destruct Hsrc as [Hsrc | (_ & Hl & Hs)]; [discriminate |].
  rewrite Nat.sub_0_r in Hl.
  rewrite list_lookup_fmap, Hc in Hl. injection Hl as <-.
  split; [apply list_elem_of_In; now apply list_elem_of_lookup_2 in Hc |].
  split; [unfold score_of; now rewrite Hs |].
  split; [now apply Qltb_false |].
  intros c' Hin. unfold score_of. apply Qdiv_100_le, Hmax.
  now apply in_map.
Qed.

(** ** find_matches *)

(** A scored choice is no better than another. *)
Definition no_better (a b : str * Q * nat) : Prop :=
  (snd (fst b) <= snd (fst a))%Q.

Lemma score_all_spec query choices index c s i :
  In (c, s, i) (Text.score_all E query choices index) ->
  index <= i /\ choices !! (i - index) = Some c /\ s = wratio E query c.
Proof.
  revert index.
  induction choices as [|d choices IH]; intros index; simpl; [intros [] |].
  intros [[= <- <- <-] | Hin].
  - rewrite Nat.sub_diag. auto.
  - apply IH in Hin as (Hi & Hl & Hs). split; [lia |]. split; [|exact Hs].
    replace (i - index) with (S (i - S index)) by lia. exact Hl.
Qed.

Lemma score_all_complete query choices index k c :
  choices !! k = Some c ->
  In (c, wratio E query c, index + k) (Text.score_all E query choices index).
Proof.
  revert index k.
  induction choices as [|d choices IH]; intros index k; [discriminate |].
  destruct k as [|k]; simpl.
  - intros [= ->]. left. now rewrite Nat.add_0_r.
  - intros Hk. right. replace (index + S k) with (S index + k) by lia.
    now apply IH.
Qed.

Lemma insert_by_score_In x l y :
  In y (Text.insert_by_score x l) <-> y = x \/ In y l.
Proof.
  induction l as [|z l IH]; simpl.
  - intuition.
  - destruct (Qle_bool _ _); simpl; [intuition |].
    rewrite IH. intuition.
Qed.

Lemma insert_by_score_length x l :
  length (Text.insert_by_score x l) = S (length l).
Proof.
  induction l as [|z l IH]; simpl; [reflexivity |].
  destruct (Qle_bool _ _); simpl; [reflexivity | now rewrite IH].
Qed.

Lemma insert_by_score_sorted x l :
  StronglySorted no_better l -> StronglySorted no_better (Text.insert_by_score x l).
Proof.
  induction 1 as [|z l Hl IH Hz]; simpl.
  - repeat constructor.
  - destruct (Qle_bool (snd (fst z)) (snd (fst x))) eqn:Hle.
    + apply Qle_bool_iff in Hle.
      constructor; [now constructor |].
      constructor; [exact Hle |].
      eapply List.Forall_impl; [|exact Hz].
      intros y Hy. unfold no_better in *. now apply Qle_trans with (snd (fst z)).
    + constructor; [exact IH |].
      apply List.Forall_forall. intros y Hy.
      apply insert_by_score_In in Hy as [-> | Hy].
      * unfold no_better. apply Qlt_le_weak, Qnot_le_lt.
        intros H. apply Qle_bool_iff in H. congruence.
      * rewrite List.Forall_forall in Hz. now apply Hz.
Qed.

Lemma ranking_spec (l : list (str * Q * nat)) :
  StronglySorted no_better (foldr Text.insert_by_score [] l)
  /\ length (foldr Text.insert_by_score [] l) = length l
  /\ forall y, In y (foldr Text.insert_by_score [] l) <-> In y l.
Proof.
  induction l as [|x l (Hs & Hlen & Hin)]; simpl.
  - split; [constructor |]. split; [reflexivity | tauto].
  - split; [now apply insert_by_score_sorted |].
    split; [now rewrite insert_by_score_length, Hlen |].
    intros y. rewrite insert_by_score_In, Hin. intuition.
Qed.

Lemma In_take {A} n (l : list A) y : In y (take n l) -> In y l.
Proof.
  revert n. induction l as [|x l IH]; intros [|n]; simpl; try tauto.
  intros [-> | H]; [now left | right; eauto].
Qed.

Lemma StronglySorted_take {A} (R : A -> A -> Prop) n (l : list A) :
  StronglySorted R l -> StronglySorted R (take n l).
Proof.
  intros H. revert n.
  induction H as [|x l Hl IH Hx]; intros [|n]; simpl; try constructor.
  - apply IH.
  - apply List.Forall_forall. intros y Hy.
    rewrite List.Forall_forall in Hx. apply Hx.
    now apply In_take in Hy.
Qed.

Lemma StronglySorted_omap {A B} (R : A -> A -> Prop) (R' : B -> B -> Prop)
  (f : A -> option B) (l : list A) :
  (forall a b a' b', R a b -> f a = Some a' -> f b = Some b' -> R' a' b') ->
  StronglySorted R l -> StronglySorted R' (omap f l).
Proof.
  intros Hf. induction 1 as [|x l Hl IH Hx]; [constructor |].
  change (omap f (x :: l))
    with (match f x with Some y => y :: omap f l | None => omap f l end).
  destruct (f x) as [y|] eqn:Hy; [|exact IH].
  constructor; [exact IH |].
  apply List.Forall_forall. intros z Hz.
  apply list_elem_of_In, list_elem_of_omap in Hz as (a & Ha & Hfa).
  rewrite List.Forall_forall in Hx.
  apply list_elem_of_In in Ha. eauto.
Qed.

(** What [find_matches] keeps of a scored choice. *)
Definition keep_match (candidates : list str) (threshold : Q) (x : str * Q * nat)
  : option (str * Q) :=
  let '(_, score, index) := x in
  let score := (score / 100)%Q in
  if Qle_bool threshold score
  then (fun c => (c, score)) <$> candidates !! index
  else None.

Lemma find_matches_unfold query candidates threshold limit :
  Text.find_matches E query candidates threshold limit
  = omap (keep_match candidates threshold)
      (take limit
         (foldr Text.insert_by_score []
            (Text.score_all E (Text.normalize_text E query)
               (map (Text.normalize_text E) candidates) 0))).
Proof. destruct candidates as [|c cs]; [now destruct limit | reflexivity]. Qed.

Lemma keep_match_spec query candidates threshold x m :
  In x (Text.score_all E (Text.normalize_text E query)
          (map (Text.normalize_text E) candidates) 0) ->
  keep_match candidates threshold x = Some m ->
  In (fst m) candidates /\ snd m = score_of query (fst m)
  /\ (threshold <= snd m)%Q /\ snd m = (snd (fst x) / 100)%Q.
Proof.
  destruct x as [[cn s] i]. intros Hx Hm. simpl in Hm.
  destruct (Qle_bool threshold (s / 100)) eqn:Hth; [|discriminate].
  destruct (candidates !! i) as [c|] eqn:Hc; [|discriminate].
  injection Hm as <-. cbn [fst snd].
  apply score_all_spec in Hx as (_ & Hl & Hs).
  rewrite Nat.sub_0_r, list_lookup_fmap, Hc in Hl. injection Hl as <-.
  split; [apply list_elem_of_In; now apply list_elem_of_lookup_2 in Hc |].
  split; [unfold score_of; now rewrite Hs |].
  split; [now apply Qle_bool_iff | reflexivity].
Qed.

(** Every pair [find_matches] returns is a candidate with its score, and
    the score is not below the threshold. *)
Lemma find_matches_sound query candidates threshold limit :
  Forall
    (fun m => In (fst m) candidates
              /\ snd m = score_of query (fst m)
              /\ (threshold <= snd m)%Q)
    (Text.find_matches E query candidates threshold limit).
Proof.
  rewrite find_matches_unfold.
  apply List.Forall_forall. intros m Hm.
  apply list_elem_of_In, list_elem_of_omap in Hm as (x & Hx & Hm).
  apply list_elem_of_In, In_take in Hx.
  apply (proj1 (proj2 (proj2 (ranking_spec _)) x)) in Hx.
  destruct (keep_match_spec query candidates threshold x m Hx Hm) as (H1 & H2 & H3 & _).
  auto.
Qed.

Lemma score_all_length query choices index :
  length (Text.score_all E query choices index) = length choices.
Proof.
  revert index. induction choices as [|d choices IH]; intros index; simpl;
    [reflexivity | now rewrite IH].
Qed.

(** X10. [find_matches] returns at most [limit] pairs; each is a candidate with
    its score, which is not below the threshold; the pairs are in
    descending order of score; and when the limit does not cut the ranking,
    every candidate that reaches the threshold is returned. *)
Theorem find_matches_spec query candidates threshold limit :
  length (Text.find_matches E query candidates threshold limit) <= limit
  /\ Forall
       (fun m => In (fst m) candidates
                 /\ snd m = score_of query (fst m)
                 /\ (threshold <= snd m)%Q)
       (Text.find_matches E query candidates threshold limit)
  /\ StronglySorted (fun a b => (snd b <= snd a)%Q)
       (Text.find_matches E query candidates threshold limit)
  /\ (length candidates <= limit ->
      forall c, In c candidates -> (threshold <= score_of query c)%Q ->
      In (c, score_of query c)
        (Text.find_matches E query candidates threshold limit)).
Proof.
  split; [apply find_matches_length |].
  split; [apply find_matches_sound |].
  rewrite find_matches_unfold.
  set (scored := Text.score_all E (Text.normalize_text E query)
                   (map (Text.normalize_text E) candidates) 0).
  destruct (ranking_spec scored) as (Hsorted & Hlen & Hin).
  split.
  - apply StronglySorted_omap
      with (R := fun a b => no_better a b /\ In a scored /\ In b scored).
    + intros a b a' b' (Hab & Ha & Hb) Hfa Hfb.
      destruct (keep_match_spec query candidates threshold a a' Ha Hfa)
        as (_ & _ & _ & ->).
      destruct (keep_match_spec query candidates threshold b b' Hb Hfb)
        as (_ & _ & _ & ->).
      now apply Qdiv_100_le.
    + assert (Hs : StronglySorted no_better
                     (take limit (foldr Text.insert_by_score [] scored)))
        by now apply StronglySorted_take.
      assert (Htake : forall x,
                In x (take limit (foldr Text.insert_by_score [] scored)) ->
                In x scored)
        by (intros x Hx; apply Hin; now apply In_take in Hx).
      revert Htake Hs.
      generalize (take limit (foldr Text.insert_by_score [] scored)).
      intros l Hl Hs. induction Hs as [|x l Hs IH Hx]; [constructor |].
      constructor.
      * apply IH. intros y Hy. apply Hl. now right.
      * apply List.Forall_forall. intros y Hy.
        rewrite List.Forall_forall in Hx.
        split; [now apply Hx |]. split; apply Hl; [now left | now right].
  - intros Hlimit c Hc Hth.
    rewrite take_ge
      by (rewrite Hlen; unfold scored; now rewrite score_all_length, length_map).
    apply list_elem_of_In in Hc. apply list_elem_of_lookup_1 in Hc as [k Hk].
    apply list_elem_of_In, list_elem_of_omap.
    exists (Text.normalize_text E c,
            wratio E (Text.normalize_text E query) (Text.normalize_text E c), k).
    split.
    + apply list_elem_of_In, Hin. unfold scored.
      apply (score_all_complete (Text.normalize_text E query) _ 0 k).
      now rewrite list_lookup_fmap, Hk.
    + unfold keep_match.
      change (wratio E (Text.normalize_text E query) (Text.normalize_text E c) / 100)%Q
        with (score_of query c).
      apply Qle_bool_iff in Hth. rewrite Hth, Hk. reflexivity.
Qed.
End FuzzySearch.


(** * The suggestions of a pendency *)

Section Suggestions.
Variable E : externals.
Import MenuEntry.

(** The suggestions of a pendency are offered from the menu: for a whole
    line, names of products; for an addition, labels of additions. *)
Definition offered (menu : list MenuEntry.t) (p : CartPendency.t) : Prop :=
  length (CartPendency.sugestoes p) <= 5
  /\ (line_level p ->
      Forall
        (fun s => exists e,
           In e menu /\ item_type e = py "product" /\ s = nome_original e)
        (CartPendency.sugestoes p))
  /\ (~ line_level p ->
      Forall
        (fun s => exists e,
           In e menu /\ item_type e = py "addition"
           /\ s = Matcher._addition_label E e)
        (CartPendency.sugestoes p)).

Lemma suggestions_of_candidates {A} (f : A -> str) query (entries : list A) :
  Forall (fun s => exists e, In e entries /\ s = f e)
    (map fst (Text.find_matches E query (map f entries) Matcher.threshold Matcher.limit)).
Proof.
  apply Forall_map.
  eapply List.Forall_impl; [|apply find_matches_sound].
  intros m (Hin & _). apply in_map_iff in Hin as (e & He & Hin). eauto.
Qed.

Lemma validated_pendency motivo texto sugestoes extras p :
  CartPendency.validate motivo texto sugestoes extras = Ok p ->
  p = CartPendency.mk motivo texto sugestoes extras /\ length sugestoes <= 5.
Proof.
  unfold CartPendency.validate.
  destruct (Nat.leb_spec (length sugestoes) 5); [|discriminate].
  intros [= <-]. auto.
Qed.

Lemma product_pendency_offered menu products motivo texto query extras p :
  Forall (fun e => In e menu /\ item_type e = py "product") products ->
  is_Some (extras !! py "quantidade") ->
  CartPendency.validate motivo texto (Matcher._suggest_products E query products) extras
  = Ok p ->
  offered menu p.
Proof.
  intros Hprod Hq Hp. apply validated_pendency in Hp as [-> Hlen].
  split; [exact Hlen |]. split; [|intros Hno; now destruct Hno].
  intros _. simpl. unfold Matcher._suggest_products.
  eapply List.Forall_impl; [|apply suggestions_of_candidates].
  intros s (e & Hin & ->). rewrite List.Forall_forall in Hprod.
  destruct (Hprod e Hin). eauto.
Qed.

Lemma addition_pendency_offered menu additions motivo texto query extras p :
  Forall (fun e => In e menu /\ item_type e = py "addition") additions ->
  extras !! py "quantidade" = None ->
  CartPendency.validate motivo texto (Matcher._suggest_additions E query additions)
    extras = Ok p ->
  offered menu p.
Proof.
  intros Hadd Hq Hp. apply validated_pendency in Hp as [-> Hlen].
  split; [exact Hlen |]. split.
  { intros [v Hv]. simpl in Hv. congruence. }
  intros _. simpl. unfold Matcher._suggest_additions.
  eapply List.Forall_impl; [|apply suggestions_of_candidates].
  intros s (e & Hin & ->). rewrite List.Forall_forall in Hadd.
  destruct (Hadd e Hin). eauto.
Qed.

Lemma match_additions_loop_offered menu texts additions product results pendencies
  rs ps :
  Forall (fun e => In e menu /\ item_type e = py "addition") additions ->
  Forall (offered menu) pendencies ->
  Matcher.match_additions_loop E texts additions product results pendencies
  = Ok (rs, ps) ->
  Forall (offered menu) ps.
Proof.
  intros Hadd. revert results pendencies.
  induction texts as [|text texts IH]; intros results pendencies Hps;
    cbn [Matcher.match_additions_loop].
  - now intros [= _ <-].
  - destruct (Matcher._match_addition E text additions).
    + destruct (CartItemAddition.validate _ _ _ _); cbn [rbind]; [|discriminate].
      now apply IH.
    + destruct (CartPendency.validate _ _ _ _) as [p|] eqn:Hp; cbn [rbind];
        [|discriminate].
      apply IH. apply Forall_app. split; [exact Hps |].
      constructor; [|constructor].
      eapply addition_pendency_offered; [exact Hadd | | exact Hp].
      rewrite lookup_insert_ne by apply quantidade_is_not_produto_base.
      apply lookup_empty.
Qed.

Lemma match_loop_offered menu items products abp interpreted pendencies its ps :
  Forall (fun e => In e menu /\ item_type e = py "product") products ->
  (forall k l, abp !! k = Some l ->
     Forall (fun e => In e menu /\ item_type e = py "addition") l) ->
  Forall (offered menu) pendencies ->
  Matcher.match_loop E items products abp interpreted pendencies = Ok (its, ps) ->
  Forall (offered menu) ps.
Proof.
  intros Hprod Habp. revert interpreted pendencies.
  induction items as [|item items IH]; intros interpreted pendencies Hps;
    cbn [Matcher.match_loop].
  - now intros [= _ <-].
  - destruct (is_additional_only item).
    { destruct (Matcher._pendency_for_additional_only E item products) as [p|]
        eqn:Hp; cbn [rbind]; [|discriminate].
      apply IH. apply Forall_app. split; [exact Hps |].
      constructor; [|constructor].
      eapply product_pendency_offered; [exact Hprod | | exact Hp].
      rewrite lookup_insert_eq. eauto. }
    destruct (Matcher._match_product E item products) as [product|].
    + destruct (Matcher._match_additions E item _ pendencies product)
        as [[adds ps0]|e] eqn:Hadds; cbn [rbind]; [|discriminate].
      destruct (CartItem.validate _ _ _ _ _ _); cbn [rbind]; [|discriminate].
      apply IH.
      unfold Matcher._match_additions in Hadds.
      destruct (ParsedItem.additions item) as [|t ts].
      { now injection Hadds as _ <-. }
      eapply match_additions_loop_offered; [| exact Hps | exact Hadds].
      destruct (abp !! Some (pdv product)) as [l|] eqn:Hl; simpl;
        [now apply (Habp _ _ Hl) | constructor].
    + destruct (Matcher._pendency_for_missing_product E item products) as [p|]
        eqn:Hp; cbn [rbind]; [|discriminate].
      apply IH. apply Forall_app. split; [exact Hps |].
      constructor; [|constructor].
      eapply product_pendency_offered; [exact Hprod | | exact Hp].
      rewrite lookup_insert_eq. eauto.
Qed.

(** X8. Nothing is suggested that is not on the menu. Every pendency of a result
    has at most five suggestions; those of a pendency about a whole line are
    names of entries of the menu of type product, and those of a pendency
    about an addition are labels of entries of the menu of type addition. *)
Theorem suggestions_come_from_menu items menu raw_text r :
  Matcher.match_items E items menu raw_text = Ok r ->
  Forall (offered menu) (pendencies r).
Proof.
  intros H. apply match_items_inv in H as (products & abp & Hidx & Hloop & _ & _).
  eapply match_loop_offered; [| | constructor | exact Hloop].
  - destruct (build_menu_loop_spec menu [] ∅) as [H1 _].
    unfold Matcher._build_menu_index in Hidx. rewrite Hidx in H1.
    simpl in H1. subst products.
    apply List.Forall_forall. intros e He.
    apply list_elem_of_In, list_elem_of_filter in He as [Htype He].
    split; [now apply list_elem_of_In | exact Htype].
  - intros k l Hl.
    apply (build_menu_loop_additions
             (fun e => In e menu /\ item_type e = py "addition") menu [] ∅) with k.
    + auto.
    + intros k' l'. now rewrite lookup_empty.
    + unfold Matcher._build_menu_index in Hidx. now rewrite Hidx.
Qed.
End Suggestions.


(** * Further properties of the parser *)

Section Strip.
Variable p : N -> bool.

Lemma lstrip_by_suffix s : exists k, s = k ++ lstrip_by p s.
Proof.
  induction s as [|c s [k IH]]; simpl.
  - now exists [].
  - destruct (p c); [exists (c :: k); simpl; now f_equal | now exists []].
Qed.

Lemma lstrip_by_fixed s :
  match s with c :: _ => p c = false | [] => True end -> lstrip_by p s = s.
Proof. destruct s; simpl; [reflexivity |]. now intros ->. Qed.

Lemma lstrip_by_head s :
  match lstrip_by p s with c :: _ => p c = false | [] => True end.
Proof.
  induction s as [|c s IH]; simpl; [exact I |].
  destruct (p c) eqn:Hc; [exact IH | exact Hc].
Qed.

Lemma lstrip_by_idem s : lstrip_by p (lstrip_by p s) = lstrip_by p s.
Proof. apply lstrip_by_fixed, lstrip_by_head. Qed.

Lemma rstrip_by_prefix s : exists k, s = rstrip_by p s ++ k.
Proof.
  unfold rstrip_by. destruct (lstrip_by_suffix (rev s)) as [k Hk].
  exists (rev k). rewrite <- rev_app_distr, <- Hk. now rewrite rev_involutive.
Qed.

(** Stripping twice is stripping once. *)
Lemma strip_by_idem s : strip_by p (strip_by p s) = strip_by p s.
Proof.
  unfold strip_by.
  set (u := lstrip_by p s).
  assert (Hl : lstrip_by p (rstrip_by p u) = rstrip_by p u).
  { apply lstrip_by_fixed.
    destruct (rstrip_by_prefix u) as [k Hk].
    pose proof (lstrip_by_head s) as Hu. fold u in Hu.
    destruct (rstrip_by p u) as [|c t]; [exact I |].
    rewrite Hk in Hu. exact Hu. }
  rewrite Hl. unfold rstrip_by.
  now rewrite rev_involutive, lstrip_by_idem.
Qed.

Lemma lstrip_by_all s : Forall (fun c => p c = true) s -> lstrip_by p s = [].
Proof. induction 1 as [|c s Hc _ IH]; simpl; [reflexivity |]. now rewrite Hc. Qed.

Lemma strip_by_all s : Forall (fun c => p c = true) s -> strip_by p s = [].
Proof. intros H. unfold strip_by. now rewrite lstrip_by_all. Qed.
End Strip.

Lemma strip_idem s : strip (strip s) = strip s.
Proof. apply strip_by_idem. Qed.

Section ParsedItems.
Variable E : externals.

Lemma split_list_nonempty text : Forall (fun part => part <> []) (Parser._split_list E text).
Proof.
  unfold Parser._split_list. destruct text as [|c text]; [constructor |].
  apply Forall_map, Forall_forall. intros part Hin.
  apply list_elem_of_filter in Hin as [Hne _]. simpl.
  destruct (Parser._clean_text E part); [discriminate | discriminate].
Qed.

Lemma extract_removals_nonempty text :
  Forall (fun part => part <> []) (snd (Parser._extract_removals E text)).
Proof.
  unfold Parser._extract_removals. cbn [snd].
  apply Forall_forall. intros part Hin.
  apply list_elem_of_In, in_flat_map in Hin as (m & _ & Hin).
  pose proof (split_list_nonempty (strip (group text m 1))) as Hall.
  rewrite Forall_forall in Hall. apply Hall. now apply list_elem_of_In.
Qed.

Lemma extract_notes_loop_sublist keywords notes cleaned :
  exists found,
    fst (Parser.extract_notes_loop E keywords notes cleaned) = notes ++ found
    /\ found `sublist_of` keywords.
Proof.
  revert notes cleaned.
  induction keywords as [|keyword rest IH]; intros notes cleaned; simpl.
  - exists []. now rewrite app_nil_r.
  - destruct (contains keyword _).
    + destruct (IH (notes ++ [keyword])
                  (strip (re_sub E true (Lit keyword) [] cleaned)))
        as (found & -> & Hsub).
      exists (keyword :: found). rewrite <- app_assoc. split; [reflexivity |].
      now constructor.
    + destruct (IH notes cleaned) as (found & -> & Hsub).
      exists found. split; [reflexivity |]. now constructor.
Qed.

(** What holds of the item of a segment. *)
Definition well_formed (segment : str) (item : ParsedItem) : Prop :=
  raw item = strip segment
  /\ match_text item = name item
  /\ size_hint item = None
  /\ Forall (fun part => part <> []) (ParsedItem.additions item)
  /\ Forall (fun part => part <> []) (removals item)
  /\ notes item `sublist_of` Parser._NOTE_KEYWORDS.

Lemma Ok_inj {A} (a b : A) : Ok a = Ok b -> a = b.
Proof. now intros [= ->]. Qed.

Lemma parse_segment_well_formed segment parsed :
  Parser._parse_segment E segment = Ok parsed ->
  exists item, parsed = Some item /\ well_formed segment item.
Proof.
  unfold Parser._parse_segment.
  match goal with
  | |- context [rbind ?m _] => destruct m as [[quantity desc]|e]
  end; cbn [rbind]; [|discriminate].
  destruct (Parser._extract_notes E desc) as [notes desc'] eqn:Hnotes.
  pose proof (extract_removals_nonempty
                (strip (re_sub E true Parser.adicional_re [] desc'))) as Hrem.
  destruct (Parser._extract_removals E _) as [desc'' removals].
  cbn [snd] in Hrem.
  assert (Hn : notes `sublist_of` Parser._NOTE_KEYWORDS).
  { unfold Parser._extract_notes in Hnotes.
    destruct (extract_notes_loop_sublist Parser._NOTE_KEYWORDS [] desc)
      as (found & Hf & Hsub).
    rewrite Hnotes in Hf. simpl in Hf. now subst. }
  match goal with
  | |- context [rbind ?m _] =>
      assert (Hadd : forall base adds, m = Ok (base, adds) ->
                Forall (fun part => part <> []) adds)
  end.
  { intros base adds.
    destruct (Parser.found _).
    - destruct (re_split E true Parser.com_re 1 desc'') as [|a [|b [|c l]]];
        try discriminate.
      intros [= <- <-]. apply split_list_nonempty.
    - intros [= <- <-]. constructor. }
  match goal with
  | |- context [rbind ?m _] => destruct m as [[base adds]|e]
  end; cbn [rbind]; [|discriminate].
  intros Hparsed. apply Ok_inj in Hparsed. subst parsed.
  eexists. split; [reflexivity |].
  unfold well_formed. cbn.
  split; [apply strip_idem |].
  split; [reflexivity |]. split; [reflexivity |].
  split; [now apply (Hadd base adds) |].
  split; assumption.
Qed.

Lemma parse_segments_well_formed segments items :
  Parser.parse_segments E segments = Ok items ->
  Forall2 (fun item segment => well_formed segment item) items segments.
Proof.
  revert items.
  induction segments as [|segment segments IH]; intros items; simpl.
  - intros [= <-]. constructor.
  - destruct (Parser._parse_segment E segment) as [parsed|e] eqn:Hseg;
      cbn [rbind]; [|discriminate].
    destruct (Parser.parse_segments E segments) as [rest|e]; cbn [rbind];
      [|discriminate].
    apply parse_segment_well_formed in Hseg as (item & -> & Hwf).
    intros [= <-]. constructor; [exact Hwf | now apply IH].
Qed.

(** X15. Whatever [parse_order_text] returns has one item for every segment of
    the message, in their order, none dropped, with the stripped segment
    as its raw text; its match text is its name, it has no size hint, none
    of its additions or removals is empty, and its notes are keywords of
    the fixed list, in the order of the list. *)
Theorem parsed_items_are_well_formed text items :
  Parser.parse_order_text E text = Ok items ->
  Forall2 (fun item segment => well_formed segment item) items
    (Parser._split_segments E (Parser._cut_context E text))
  /\ map raw items
     = map strip (Parser._split_segments E (Parser._cut_context E text)).
Proof.
  intros H.
  assert (Hall : Forall2 (fun item segment => well_formed segment item) items
                   (Parser._split_segments E (Parser._cut_context E text))).
  { unfold Parser.parse_order_text in H.
    destruct text as [|c text].
    - injection H as <-. vm_compute. constructor.
    - now apply parse_segments_well_formed. }
  split; [exact Hall |]. clear H.
  induction Hall as [|item segment items segments [Hraw _] _ IH];
    [reflexivity |].
  cbn [map]. rewrite Hraw. f_equal. exact IH.
Qed.

(** ** Messages of white space *)

Lemma splitlines_aux_all (P : N -> Prop) cur s :
  Forall P cur -> Forall P s -> Forall (Forall P) (splitlines_aux cur s).
Proof.
  revert cur.
  induction s as [s IH] using (induction_ltof1 _ (@length N)).
  unfold ltof in IH. intros cur Hcur Hs.
  destruct s as [|c s']; simpl.
  - destruct cur; [constructor |].
    constructor; [|constructor]. now apply Forall_rev.
  - inversion Hs as [|? ? Hc Hs']; subst.
    destruct (is_linebreak c).
    + destruct s' as [|d s''].
      * constructor; [now apply Forall_rev | constructor].
      * inversion Hs' as [|? ? Hd Hs'']; subst.
        destruct ((c =? 13)%N && (d =? 10)%N).
        -- constructor; [now apply Forall_rev |].
           apply IH; [simpl; lia | constructor | assumption].
        -- constructor; [now apply Forall_rev |].
           apply IH; [simpl; lia | constructor | assumption].
    + apply IH; [simpl; lia | now constructor | assumption].
Qed.

Lemma split_segments_of_white_space text :
  Forall (fun c => is_space c = true) text -> Parser._split_segments E text = [].
Proof.
  intros Hws. unfold Parser._split_segments.
  assert (Hlines : filter (fun line => Parser.nonempty (strip line) = true)
                     (splitlines text) = []).
  { pose proof (splitlines_aux_all (fun c => is_space c = true) [] text
                  (List.Forall_nil _) Hws) as Hall.
    fold (splitlines text) in Hall.
    induction Hall as [|line lines Hline _ IH]; [reflexivity |].
    rewrite filter_cons. case_decide as Hd; [| exact IH].
    unfold strip in Hd. rewrite strip_by_all in Hd by assumption.
    discriminate. }
  now rewrite Hlines.
Qed.

Lemma white_space_has_no_item text :
  Forall (fun c => is_space c = true) text ->
  Parser.parse_order_text E text = Ok [].
Proof.
  intros Hws. unfold Parser.parse_order_text.
  destruct text as [|c text]; [reflexivity |].
  rewrite split_segments_of_white_space; [reflexivity |].
  unfold Parser._cut_context.
  destruct (contains _ _); [exact Hws |].
  destruct (re_search E true Parser._CUTOFF_RE (c :: text)) as [m|]; [|exact Hws].
  unfold strip. rewrite strip_by_all; [constructor |].
  now apply Forall_take.
Qed.
End ParsedItems.


(** * Further properties of app/utils/text.py *)

Section TextProps.
Variable E : externals.

(** ** truncate *)

Lemma len_app (a b : str) : len (a ++ b) = (len a + len b)%Z.
Proof. unfold len. rewrite length_app. lia. Qed.

(** X13. The length of a truncated text. When the suffix is no longer than
    [max_length], the result is the text or has exactly [max_length]
    characters. With a longer suffix the slice bound is negative and counts
    from the end of the text: the result is longer than [max_length]. *)
Theorem truncate_length (text suffix : str) (max_length : Z) :
  ((len suffix <= max_length)%Z ->
   len (Text.truncate text max_length suffix) = Z.min (len text) max_length)
  /\ ((max_length < len suffix)%Z -> (max_length < len text)%Z ->
      len (Text.truncate text max_length suffix)
      = Z.max (len suffix) (len text + max_length)
      /\ (max_length < len (Text.truncate text max_length suffix))%Z).
Proof.
  unfold Text.truncate, Text.slice_to. split.
  - intros Hs. destruct (Z.leb_spec (len text) max_length) as [Hle|Hgt]; [lia |].
    destruct (Z.leb_spec 0 (max_length - len suffix)) as [_|Hneg]; [|lia].
    rewrite len_app. unfold len in *. rewrite length_take. lia.
  - intros Hs Ht. destruct (Z.leb_spec (len text) max_length) as [Hle|_]; [lia |].
    destruct (Z.leb_spec 0 (max_length - len suffix)) as [Hpos|_]; [lia |].
    rewrite len_app. unfold len in *. rewrite length_take. lia.
Qed.

(** ** make_fingerprint *)

(** What [re.sub] with an empty replacement does for a pattern of one
    character class: it deletes the characters of the class. *)
Lemma sub_one_class ic a (s pre : str) from prev :
  from <= length pre ->
  substitute (pre ++ s) from (scan E ic (One a) 0 prev s (length pre)) []
  = drop from pre ++ filter (fun c => atom_match E ic a c = false) s.
Proof.
  revert pre from prev.
  induction s as [|c s IH]; intros pre from prev Hfrom.
  - simpl. rewrite !app_nil_r. reflexivity.
  - unfold str in *. rewrite filter_cons. cbn [scan]. unfold try_at at 1. cbn [rx].
    assert (Htext : pre ++ c :: s = (pre ++ [c]) ++ s) by now rewrite <- app_assoc.
    assert (Hlen : S (length pre) = length (pre ++ [c]))
      by (rewrite length_app; simpl; lia).
    destruct (atom_match E ic a c) eqn:Hc.
    + cbn [andb m_end m_start].
      replace (S (length pre) =? length pre) with false
        by (symmetry; apply Nat.eqb_neq; lia).
      replace (S (length pre) - length pre - 1) with 0 by lia.
      cbn [substitute m_start m_end expand flat_map].
      case_decide; [discriminate |].
      rewrite Htext, Hlen, IH by lia.
      rewrite drop_all. cbn [app].
      try rewrite <- Hlen. rewrite <- Htext. unfold slice.
      rewrite drop_app_le by lia.
      rewrite take_app_le by (rewrite length_drop; lia).
      rewrite take_ge by (rewrite length_drop; lia). reflexivity.
    + case_decide; [|contradiction].
      rewrite Htext, Hlen, IH by (rewrite length_app; simpl; lia).
      rewrite drop_app_le by lia. now rewrite <- app_assoc.
Qed.

Lemma re_sub_one_class ic a (s : str) :
  re_sub E ic (One a) [] s = filter (fun c => atom_match E ic a c = false) s.
Proof.
  unfold re_sub, re_finditer.
  exact (sub_one_class ic a s [] 0 None (Nat.le_refl 0)).
Qed.

(** The characters of a fingerprint: a to z and 0 to 9. *)
Definition fingerprint_char (c : N) : bool :=
  in_range 0x61 0x7A c || in_range 0x30 0x39 c.

Lemma make_fingerprint_filter text :
  Text.make_fingerprint E text
  = filter (fun c => fingerprint_char c = true) (lower (unidecode E text)).
Proof.
  unfold Text.make_fingerprint. destruct text as [|c text]; [reflexivity |].
  cbv zeta. unfold Text.not_alnum_lower. rewrite re_sub_one_class.
  apply list_filter_iff. intros d. unfold atom_match, fingerprint_char.
  cbn [andb existsb item_match xorb]. rewrite orb_false_r.
  destruct (_ || _); simpl; intuition discriminate.
Qed.

Lemma fingerprint_char_fixed s :
  Forall (fun c => fingerprint_char c = true) s ->
  lower (unidecode E s) = s.
Proof.
  induction 1 as [|c s Hc _ IH]; [reflexivity |].
  unfold fingerprint_char, in_range in Hc.
  apply orb_true_iff in Hc. rewrite !andb_true_iff, !N.leb_le in Hc.
  cbn [unidecode flat_map]. fold (unidecode E s).
  unfold unidecode_char.
  assert (Hascii : (c <? 0x80)%N = true) by (apply N.ltb_lt; lia).
  rewrite Hascii. cbn [app]. unfold lower in *. cbn [map]. rewrite IH.
  f_equal. unfold ascii_lower_char, in_range.
  assert (Hup : ((0x41 <=? c) && (c <=? 0x5A))%N = false)
    by (apply andb_false_iff; rewrite !N.leb_gt; lia).
  now rewrite Hup.
Qed.

(** X11. A fingerprint holds only the letters a to z and the digits 0 to 9,
    whatever the transliteration table gives; it is the lowered
    transliteration of the text without its other characters; and the
    fingerprint of a fingerprint is the fingerprint itself. *)
Theorem make_fingerprint_is_canonical text :
  Forall (fun c => fingerprint_char c = true) (Text.make_fingerprint E text)
  /\ Text.make_fingerprint E text
     = filter (fun c => fingerprint_char c = true) (lower (unidecode E text))
  /\ Text.make_fingerprint E (Text.make_fingerprint E text)
     = Text.make_fingerprint E text.
Proof.
  assert (Hall : Forall (fun c => fingerprint_char c = true)
                   (Text.make_fingerprint E text)).
  { rewrite make_fingerprint_filter. apply Forall_forall. intros c Hin.
    now apply list_elem_of_filter in Hin as [Hc _]. }
  split; [exact Hall |]. split; [apply make_fingerprint_filter |].
  rewrite (make_fingerprint_filter (Text.make_fingerprint E text)).
  rewrite fingerprint_char_fixed by exact Hall.
  clear -Hall. unfold str in *.
  induction Hall as [|c s Hc _ IH]; [reflexivity |].
  rewrite filter_cons. case_decide; [now rewrite IH | contradiction].
Qed.

(** ** clean_whatsapp_formatting *)

(** A pattern that starts with a literal character finds nothing in a text
    without that character. *)
Lemma scan_without_mark c w rest (s : str) prev pos :
  ~ In c s ->
  scan E false (Seq (Lit (c :: w)) rest) 0 prev s pos = [].
Proof.
  revert prev pos.
  induction s as [|d s IH]; intros prev pos Hc.
  - reflexivity.
  - cbn [scan]. unfold try_at. cbn [rx lit_match].
    unfold chr_match. cbn [andb].
    assert (Hd : (d =? c)%N = false).
    { apply N.eqb_neq. intros ->. apply Hc. now left. }
    rewrite Hd. apply IH. intros Hin. apply Hc. now right.
Qed.

Lemma re_sub_without_mark c w rest t (s : str) :
  ~ In c s -> re_sub E false (Seq (Lit (c :: w)) rest) t s = s.
Proof.
  intros Hc. unfold re_sub, re_finditer.
  now rewrite scan_without_mark.
Qed.

(** X14. A text without asterisk, underscore, tilde and backquote has no
    WhatsApp mark-up and is returned as it is. *)
Theorem plain_text_is_not_reformatted text :
  ~ In 0x2A%N text -> ~ In 0x5F%N text -> ~ In 0x7E%N text -> ~ In 0x60%N text ->
  Text.clean_whatsapp_formatting E text = text.
Proof.
  intros Hbold Hitalic Hstrike Hmono.
  unfold Text.clean_whatsapp_formatting.
  unfold Text.bold_re, Text.italic_re, Text.strike_re, Text.block_re, Text.mono_re,
    Text.delimited.
  change (py "*") with [0x2A%N]. change (py "_") with [0x5F%N].
  change (py "~") with [0x7E%N]. change (py "```") with [0x60%N; 0x60%N; 0x60%N].
  change (py "`") with [0x60%N].
  cbn [seqs].
  rewrite (re_sub_without_mark 0x2A) by assumption.
  rewrite (re_sub_without_mark 0x5F) by assumption.
  rewrite (re_sub_without_mark 0x7E) by assumption.
  rewrite (re_sub_without_mark 0x60 [0x60; 0x60]%N) by assumption.
  now apply re_sub_without_mark.
Qed.
End TextProps.


(** * The characters of a normalized text *)

Section NormalizedText.
Variable E : externals.

(** A character of a normalized text: Basic Latin, no capital letter, and
    no white space other than the space. *)
Definition normalized_char (c : N) : Prop :=
  (c < 0x80)%N /\ in_range 0x41 0x5A c = false
  /\ (is_space c = true -> c = 0x20%N).

Lemma unidecode_ascii (s : str) : Forall (fun c => (c < 0x80)%N) (unidecode E s).
Proof.
  unfold unidecode. induction s as [|c s IH]; simpl; [constructor |].
  apply Forall_app. split; [|exact IH].
  unfold unidecode_char. destruct (N.ltb_spec c 0x80).
  - constructor; [assumption | constructor].
  - apply Forall_forall. intros d Hd.
    apply list_elem_of_filter in Hd as [Hd _].
    apply N.ltb_lt. now apply Is_true_true.
Qed.

Lemma lower_ascii (s : str) :
  Forall (fun c => (c < 0x80)%N) s ->
  Forall (fun c => (c < 0x80)%N /\ in_range 0x41 0x5A c = false) (lower s).
Proof.
  unfold lower. induction 1 as [|c s Hc _ IH]; simpl; constructor; [|exact IH].
  unfold ascii_lower_char, in_range.
  destruct ((0x41 <=? c) && (c <=? 0x5A))%N eqn:Hup.
  - apply andb_true_iff in Hup as [H1 H2]. apply N.leb_le in H1, H2.
    split; [lia |]. apply andb_false_iff. right. apply N.leb_gt. lia.
  - auto.
Qed.

Lemma split_ws_aux_words (P : N -> Prop) cur s :
  Forall (fun c => P c /\ is_space c = false) cur ->
  Forall P s ->
  Forall (Forall (fun c => P c /\ is_space c = false)) (split_ws_aux cur s).
Proof.
  intros Hcur Hs. revert cur Hcur.
  induction Hs as [|c s Hc _ IH]; intros cur Hcur; simpl.
  - destruct cur; [constructor |].
    constructor; [now apply Forall_rev | constructor].
  - destruct (is_space c) eqn:Hsp.
    + destruct cur.
      * apply IH. constructor.
      * constructor; [now apply Forall_rev | apply IH; constructor].
    + apply IH. constructor; auto.
Qed.

Lemma join_space_chars (words : list str) :
  Forall
    (Forall (fun c => ((c < 0x80)%N /\ in_range 0x41 0x5A c = false)
                      /\ is_space c = false)) words ->
  Forall normalized_char (join (py " ") words).
Proof.
  assert (Hword : forall w : str,
            Forall (fun c => ((c < 0x80)%N /\ in_range 0x41 0x5A c = false)
                             /\ is_space c = false) w ->
            Forall normalized_char w).
  { intros w Hw. eapply List.Forall_impl; [|exact Hw].
    intros c [[H1 H2] H3]. split; [exact H1 |]. split; [exact H2 |]. congruence. }
  induction 1 as [|w words Hw Hws IH]; [constructor |].
  cbn [join]. destruct words as [|w' words]; [now apply Hword |].
  apply Forall_app. split; [now apply Hword |].
  apply Forall_app. split; [|exact IH].
  constructor; [|constructor].
  split; [reflexivity |]. split; [reflexivity | reflexivity].
Qed.

Lemma strip_by_chars (P : N -> Prop) p (s : str) :
  Forall P s -> Forall P (strip_by p s).
Proof.
  assert (Hl : forall t : str, Forall P t -> Forall P (lstrip_by p t)).
  { induction 1 as [|c t Hc Ht IH]; simpl; [constructor |].
    destruct (p c); [exact IH | now constructor]. }
  intros H. unfold strip_by, rstrip_by.
  apply Forall_rev, Hl, Forall_rev, Hl, H.
Qed.

(** X12. A normalized text is lower-case Basic Latin whatever the text was:
    it has no character above U+007F and no capital letter, and its only
    white space is the space. *)
Theorem normalize_text_chars text :
  Forall normalized_char (Text.normalize_text E text).
Proof.
  unfold Text.normalize_text. destruct text as [|c text]; [constructor |].
  cbv zeta. unfold strip_chars. apply strip_by_chars.
  apply join_space_chars. unfold split_ws.
  apply split_ws_aux_words; [constructor |].
  apply lower_ascii, unidecode_ascii.
Qed.
End NormalizedText.


(** * Further properties of the resolver *)

Section Dedupe.


End Dedupe.


(** * The pipeline *)

Section PipelineProps.
Variable E : externals.

(** Resolving distinct objects resolves each of them once. *)
Lemma resolve_distinct_lookup (refs : list ref) (h : store) (r : ref) :
  NoDup refs ->
  foldl (fun h item => alter (Resolver.resolve_fields E) item h) h refs !! r
  = if bool_decide (r ∈ refs)
    then Resolver.resolve_fields E <$> h !! r
    else h !! r.
Proof.
  revert h.
  induction refs as [|a refs IH]; intros h Hnd; simpl.
  - reflexivity.
  - apply NoDup_cons in Hnd as [Hnot Hnd]. rewrite IH by exact Hnd.
    destruct (decide (r = a)) as [->|Hne].
    + rewrite (bool_decide_eq_false_2 _ Hnot).
      rewrite bool_decide_eq_true_2 by left.
      apply lookup_alter_eq.
    + rewrite lookup_alter_ne by congruence.
      destruct (bool_decide (r ∈ refs)) eqn:Hr.
      * apply bool_decide_eq_true in Hr.
        now rewrite bool_decide_eq_true_2 by now right.
      * apply bool_decide_eq_false in Hr.
        rewrite bool_decide_eq_false_2; [reflexivity |].
        intros Hin. apply elem_of_cons in Hin as [? | ?]; contradiction.
Qed.

Lemma allocate_lookup (items : list ParsedItem) (start : nat) :
  forall k, (list_to_map (zip (seq start (length items)) items) : store)
            !! (start + k) = items !! k.
Proof.
  revert start.
  induction items as [|item items IH]; intros start k; simpl.
  - now rewrite lookup_empty.
  - destruct k as [|k].
    + rewrite Nat.add_0_r. now rewrite lookup_insert_eq.
    + rewrite lookup_insert_ne by lia.
      replace (start + S k) with (S start + k) by lia. apply IH.
Qed.

(** The objects the parser returns are distinct, so the resolver, which
    works in place, leaves the list of the items resolved one by one. *)
Lemma resolve_fresh_objects (items : list ParsedItem) :
  let '(refs, h) := Pipeline.allocate items in
  let '(resolved, h') := Resolver.resolve_parsed_items E refs h in
  omap (fun r => h' !! r) resolved = map (Resolver.resolve_fields E) items.
Proof.
  unfold Pipeline.allocate, Resolver.resolve_parsed_items.
  set (refs := seq 0 (length items)).
  set (h := list_to_map (zip refs items) : store).
  destruct (resolve_loop_spec E refs [] h) as [H1 H2].
  destruct (Resolver.resolve_loop E refs [] h) as [resolved h'].
  simpl in H1, H2. subst resolved.
  assert (Hall : forall k it, items !! k = Some it ->
            h' !! k = Some (Resolver.resolve_fields E it)).
  { intros k it Hk. rewrite H2, resolve_distinct_lookup by apply NoDup_seq.
    rewrite bool_decide_eq_true_2
      by (apply elem_of_seq; apply lookup_lt_Some in Hk; lia).
    unfold h, refs. change k with (0 + k) at 1.
    rewrite (allocate_lookup items 0 k), Hk. reflexivity. }
  clear H2. unfold refs. clear h refs.
  assert (Hgen : forall start (l : list ParsedItem),
            (forall k it, l !! k = Some it ->
               h' !! (start + k) = Some (Resolver.resolve_fields E it)) ->
            omap (fun r => h' !! r) (seq start (length l))
            = map (Resolver.resolve_fields E) l).
  { intros start l. revert start.
    induction l as [|it l IH]; intros start Hl; [reflexivity |].
    cbn [length seq map].
    change (omap ?f (?x :: ?t))
      with (match f x with Some y => y :: omap f t | None => omap f t end).
    cbv beta.
    pose proof (Hl 0 it eq_refl) as H0. rewrite Nat.add_0_r in H0.
    rewrite H0. f_equal. apply IH. intros k it' Hk.
    replace (S start + k) with (start + S k) by lia. now apply Hl. }
  apply (Hgen 0 items). exact Hall.
Qed.

End PipelineProps.


(** * From the message to the order *)

Section EndToEnd.
Variable E : externals.

Lemma interpret_stages text menu r :
  Pipeline.interpret E text menu = Ok r ->
  exists parsed,
    Parser.parse_order_text E text = Ok parsed
    /\ Matcher.match_items E (map (Resolver.resolve_fields E) parsed) menu text = Ok r.
Proof.
  unfold Pipeline.interpret.
  destruct (Parser.parse_order_text E text) as [parsed|e]; [|discriminate].
  cbn [rbind]. intros H. exists parsed. split; [reflexivity |].
  pose proof (resolve_fresh_objects E parsed) as Hres.
  destruct (Pipeline.allocate parsed) as [refs h].
  destruct (Resolver.resolve_parsed_items E refs h) as [resolved h'].
  now rewrite <- Hres.
Qed.

(** X19. Every segment of the message is answered. When the pipeline returns an
    order, its cart lines and its pendencies about a whole line are
    together as many as the segments the parser cut the message into, and
    the text of each such pendency is a segment, without the white space
    around it. The order keeps the message as its raw text. *)
Theorem every_segment_is_answered text menu r :
  Pipeline.interpret E text menu = Ok r ->
  length (InterpretedOrder.items r) + length (filter line_level (pendencies r))
  = length (Parser._split_segments E (Parser._cut_context E text))
  /\ Forall
       (fun p =>
          In (CartPendency.texto_original p)
            (map strip (Parser._split_segments E (Parser._cut_context E text))))
       (filter line_level (pendencies r))
  /\ raw_text r = text.
Proof.
  intros H. apply interpret_stages in H as (parsed & Hparse & Hmatch).
  assert (Hsegs : Forall2 (fun item segment => well_formed segment item) parsed
                    (Parser._split_segments E (Parser._cut_context E text))).
  { unfold Parser.parse_order_text in Hparse. destruct text as [|c text].
    - injection Hparse as <-. vm_compute. constructor.
    - now apply parse_segments_well_formed in Hparse. }
  assert (Hraw : map raw (map (Resolver.resolve_fields E) parsed)
                 = map strip (Parser._split_segments E (Parser._cut_context E text))).
  { clear -Hsegs. induction Hsegs as [|item segment items segments [Hr _] _ IH];
      [reflexivity |].
    cbn [map]. rewrite IH. f_equal.
    destruct (resolve_fields_frame E item) as [-> _]. exact Hr. }
  assert (Hlen : length parsed
                 = length (Parser._split_segments E (Parser._cut_context E text)))
    by (eapply Forall2_length; exact Hsegs).
  apply match_items_inv in Hmatch
    as (products & abp & Hidx & Hloop & Hraw_text & _).
  apply match_loop_facts in Hloop as (nl & np & Hl & Hp & Hlines & Htexts).
  simpl in Hl, Hp. rewrite Hl, Hp.
  split; [|split].
  - rewrite <- Hlen, <- (length_map (Resolver.resolve_fields E) parsed).
    rewrite <- (filter_partition_length E products).
    rewrite (Forall2_length _ _ _ Hlines).
    rewrite <- (length_map CartPendency.texto_original), Htexts, length_map.
    reflexivity.
  - apply Forall_forall. intros p Hin. rewrite <- Hraw.
    apply list_elem_of_In, (in_map CartPendency.texto_original) in Hin.
    rewrite Htexts in Hin. apply in_map_iff in Hin as (item & <- & Hitem).
    apply in_map. apply list_elem_of_In, list_elem_of_filter in Hitem as [_ Hitem].
    now apply list_elem_of_In.
  - exact Hraw_text.
Qed.

(** X16. A message of white space alone (spaces, tabs, line breaks) has no item:
    the parser returns the empty list, and the whole pipeline returns,
    without an error, the order of the empty message: no cart line, no
    pendency, full confidence. *)
Theorem white_space_gives_empty_order text menu :
  Forall (fun c => is_space c = true) text ->
  Parser.parse_order_text E text = Ok []
  /\ exists r,
    Pipeline.interpret E text menu = Ok r
    /\ InterpretedOrder.items r = []
    /\ pendencies r = []
    /\ (confidence r == 1)%Q
    /\ raw_text r = text.
Proof.
  intros Hws. split; [now apply white_space_has_no_item |].
  unfold Pipeline.interpret.
  rewrite (white_space_has_no_item E text Hws). cbn.
  unfold Matcher.match_items.
  destruct (Matcher._build_menu_index menu) as [products abp].
  simpl. rewrite order_validate_ok.
  eexists. split; [reflexivity |]. simpl. repeat split.
Qed.
End EndToEnd.

(** * Where the matches of a pattern lie *)

Section MatchOrder.
Variable E : externals.
Variable ic : bool.

(** A continuation that never returns an end before the position it is
    given. *)
Definition advancing (k : kont) : Prop :=
  forall q s n cs m cs', k q s n cs = Some (m, cs') -> n <= m.

Lemma lit_match_pos w prev s pos q s' pos' :
  lit_match E ic w prev s pos = Some (q, s', pos') -> pos <= pos'.
Proof.
  revert prev s pos.
  induction w as [|p w IH]; intros prev s pos; simpl.
  - intros [= _ _ <-]. lia.
  - destruct s as [|c s]; [discriminate |].
    destruct (chr_match E ic p c); [|discriminate].
    intros H. apply IH in H. lia.
Qed.

Lemma rep_greedy_pos p (k : option N -> str -> nat -> option (nat * caps))
  lo hi prev s pos m cs' :
  (forall q t n m cs', k q t n = Some (m, cs') -> n <= m) ->
  rep_greedy p k lo hi prev s pos = Some (m, cs') -> pos <= m.
Proof.
  intros Hk. revert lo hi prev pos.
  induction s as [|c s IH]; intros lo hi prev pos; cbn [rep_greedy].
  - destruct (hi_zero hi); destruct lo; try discriminate; apply Hk.
  - assert (Hstop : match lo with O => k prev (c :: s) pos | S _ => None end
                    = Some (m, cs') -> pos <= m)
      by (destruct lo; [apply Hk | discriminate]).
    destruct (hi_zero hi); [exact Hstop |].
    destruct (p c); [|exact Hstop].
    destruct (rep_greedy p k (pred lo) (pred <$> hi) (Some c) s (S pos))
      as [r|] eqn:Hr; [|exact Hstop].
    intros [= ->]. apply IH in Hr. lia.
Qed.

Lemma rep_lazy_pos p (k : option N -> str -> nat -> option (nat * caps))
  lo hi prev s pos m cs' :
  (forall q t n m cs', k q t n = Some (m, cs') -> n <= m) ->
  rep_lazy p k lo hi prev s pos = Some (m, cs') -> pos <= m.
Proof.
  intros Hk. revert lo hi prev pos.
  induction s as [|c s IH]; intros lo hi prev pos; cbn [rep_lazy].
  - destruct lo.
    + destruct (k prev [] pos) as [r|] eqn:Hr.
      * intros [= ->]. now apply Hk in Hr.
      * destruct (hi_zero hi); discriminate.
    + destruct (hi_zero hi); discriminate.
  - assert (Hmore : (if hi_zero hi then None
                     else if p c
                          then rep_lazy p k (pred lo) (pred <$> hi) (Some c) s (S pos)
                          else None) = Some (m, cs') -> pos <= m).
    { destruct (hi_zero hi); [discriminate |].
      destruct (p c); [|discriminate].
      intros H. apply IH in H. lia. }
    destruct lo.
    + destruct (k prev (c :: s) pos) as [r|] eqn:Hr; [|exact Hmore].
      intros [= ->]. now apply Hk in Hr.
    + exact Hmore.
Qed.

(** A match never ends before it starts. *)
Lemma rx_pos r prev s pos cs k m cs' :
  advancing k -> rx E ic r prev s pos cs k = Some (m, cs') -> pos <= m.
Proof.
  revert prev s pos cs k m cs'.
  induction r as [| a | w | a lo hi greedy | r1 IH1 r2 IH2 | r1 IH1 r2 IH2
                  | r1 IH1 | g r1 IH1 | | | | r1 IH1];
    intros prev s pos cs k m cs' Hk; cbn [rx].
  - apply Hk.
  - destruct s as [|c s]; [discriminate |].
    destruct (atom_match E ic a c); [|discriminate].
    intros H. apply Hk in H. lia.
  - destruct (lit_match E ic w prev s pos) as [[[q s'] pos']|] eqn:Hl;
      [|discriminate].
    intros H. apply Hk in H. apply lit_match_pos in Hl. lia.
  - destruct greedy.
    + apply rep_greedy_pos. intros q t n m0 cs0. apply Hk.
    + apply rep_lazy_pos. intros q t n m0 cs0. apply Hk.
  - apply IH1. intros q t n cs0 m0 cs1. apply IH2, Hk.
  - destruct (rx E ic r1 prev s pos cs k) as [x|] eqn:H1.
    + intros [= ->]. now apply IH1 in H1.
    + now apply IH2.
  - destruct (rx E ic r1 prev s pos cs k) as [x|] eqn:H1.
    + intros [= ->]. now apply IH1 in H1.
    + apply Hk.
  - apply IH1. intros q t n cs0 m0 cs1. apply Hk.
  - destruct prev; [discriminate | apply Hk].
  - destruct s as [|c [|d s]]; [apply Hk | | discriminate].
    destruct (c =? 10)%N; [apply Hk | discriminate].
  - destruct (xorb _ _); [apply Hk | discriminate].
  - destruct (rx E ic r1 prev s pos cs _) as [[n cs0]|]; [apply Hk | discriminate].
Qed.

(** The matcher returns only what its continuation returns. *)
Lemma rep_greedy_result {R} (Q : R -> Prop) p (k : option N -> str -> nat -> option R)
  lo hi prev s pos res :
  (forall q t n x, k q t n = Some x -> Q x) ->
  rep_greedy p k lo hi prev s pos = Some res -> Q res.
Proof.
  intros Hk. revert lo hi prev pos.
  induction s as [|c s IH]; intros lo hi prev pos; cbn [rep_greedy].
  - destruct (hi_zero hi); destruct lo; try discriminate; apply Hk.
  - assert (Hstop : match lo with O => k prev (c :: s) pos | S _ => None end
                    = Some res -> Q res)
      by (destruct lo; [apply Hk | discriminate]).
    destruct (hi_zero hi); [exact Hstop |].
    destruct (p c); [|exact Hstop].
    destruct (rep_greedy p k (pred lo) (pred <$> hi) (Some c) s (S pos))
      as [x|] eqn:Hx; [|exact Hstop].
    intros [= ->]. now apply IH in Hx.
Qed.

Lemma rep_lazy_result {R} (Q : R -> Prop) p (k : option N -> str -> nat -> option R)
  lo hi prev s pos res :
  (forall q t n x, k q t n = Some x -> Q x) ->
  rep_lazy p k lo hi prev s pos = Some res -> Q res.
Proof.
  intros Hk. revert lo hi prev pos.
  induction s as [|c s IH]; intros lo hi prev pos; cbn [rep_lazy].
  - destruct lo.
    + destruct (k prev [] pos) as [x|] eqn:Hx.
      * intros [= ->]. now apply Hk in Hx.
      * destruct (hi_zero hi); discriminate.
    + destruct (hi_zero hi); discriminate.
  - assert (Hmore : (if hi_zero hi then None
                     else if p c
                          then rep_lazy p k (pred lo) (pred <$> hi) (Some c) s (S pos)
                          else None) = Some res -> Q res).
    { destruct (hi_zero hi); [discriminate |].
      destruct (p c); [apply IH | discriminate]. }
    destruct lo; [|exact Hmore].
    destruct (k prev (c :: s) pos) as [x|] eqn:Hx; [|exact Hmore].
    intros [= ->]. now apply Hk in Hx.
Qed.

Lemma rx_result (Q : nat * caps -> Prop) r prev s pos cs (k : kont) res :
  (forall q t n cs0 x, k q t n cs0 = Some x -> Q x) ->
  rx E ic r prev s pos cs k = Some res -> Q res.
Proof.
  revert prev s pos cs k res.
  induction r as [| a | w | a lo hi greedy | r1 IH1 r2 IH2 | r1 IH1 r2 IH2
                  | r1 IH1 | g r1 IH1 | | | | r1 IH1];
    intros prev s pos cs k res Hk; cbn [rx].
  - apply Hk.
  - destruct s as [|c s]; [discriminate |].
    destruct (atom_match E ic a c); [apply Hk | discriminate].
  - destruct (lit_match E ic w prev s pos) as [[[q s'] pos']|];
      [apply Hk | discriminate].
  - destruct greedy.
    + apply rep_greedy_result. intros q t n x. apply Hk.
    + apply rep_lazy_result. intros q t n x. apply Hk.
  - apply IH1. intros q t n cs0 x. apply IH2, Hk.
  - destruct (rx E ic r1 prev s pos cs k) as [x|] eqn:H1.
    + intros [= ->]. now apply IH1 in H1.
    + now apply IH2.
  - destruct (rx E ic r1 prev s pos cs k) as [x|] eqn:H1.
    + intros [= ->]. now apply IH1 in H1.
    + apply Hk.
  - apply IH1. intros q t n cs0 x. apply Hk.
  - destruct prev; [discriminate | apply Hk].
  - destruct s as [|c [|d s]]; [apply Hk | | discriminate].
    destruct (c =? 10)%N; [apply Hk | discriminate].
  - destruct (xorb _ _); [apply Hk | discriminate].
  - destruct (rx E ic r1 prev s pos cs _) as [[n cs0]|]; [apply Hk | discriminate].
Qed.

Lemma try_at_span must_advance r prev s pos m :
  try_at E ic must_advance r prev s pos = Some m ->
  m_start m = pos /\ pos <= m_end m /\ (must_advance = true -> pos < m_end m).
Proof.
  unfold try_at.
  destruct (rx E ic r prev s pos ∅ _) as [[n cs]|] eqn:Hrx; [|discriminate].
  intros [= <-]. cbn [m_start m_end]. split; [reflexivity |].
  assert (Hle : pos <= n).
  { eapply rx_pos; [|exact Hrx].
    intros q t n0 cs0 m0 cs1.
    destruct (must_advance && (n0 =? pos)); [discriminate |].
    intros [= <- _]. lia. }
  split; [exact Hle |].
  intros ->.
  assert (Hne : fst (n, cs) <> pos).
  { eapply (rx_result (fun x => fst x <> pos)); [|exact Hrx].
    intros q t n0 cs0 x. cbn [andb].
    destruct (Nat.eqb_spec n0 pos); [discriminate |].
    now intros [= <-]. }
  cbn [fst] in Hne. lia.
Qed.

(** Matches from left to right, none starting before the one before it
    ends. *)
Fixpoint ordered (from : nat) (ms : list rmatch) : Prop :=
  match ms with
  | [] => True
  | m :: ms' => from <= m_start m /\ m_start m <= m_end m /\ ordered (m_end m) ms'
  end.

Lemma scan_ordered r skip prev s pos :
  ordered (pos + skip) (scan E ic r skip prev s pos).
Proof.
  revert skip prev pos.
  induction s as [|c s IH]; intros skip prev pos.
  - destruct skip as [|skip]; cbn [scan]; [|exact I].
    destruct (try_at E ic false r prev [] pos) as [m|] eqn:Hm; [|exact I].
    apply try_at_span in Hm as (Hs & He & _).
    destruct (Nat.eqb_spec (m_end m) pos) as [Hempty|Hempty].
    + destruct (try_at E ic true r prev [] pos) as [m'|] eqn:Hm'.
      * apply try_at_span in Hm' as (Hs' & He' & _).
        cbn [ordered]. repeat split; lia.
      * cbn [ordered]. repeat split; lia.
    + cbn [ordered]. repeat split; lia.
  - destruct skip as [|skip]; cbn [scan].
    + destruct (try_at E ic false r prev (c :: s) pos) as [m|] eqn:Hm.
      * apply try_at_span in Hm as (Hs & He & _).
        destruct (m_end m =? pos) eqn:Hempty.
        -- apply Nat.eqb_eq in Hempty.
           destruct (try_at E ic true r prev (c :: s) pos) as [m'|] eqn:Hm'.
           ++ apply try_at_span in Hm' as (Hs' & He' & Hadv).
              specialize (Hadv eq_refl).
              cbn [ordered]. split; [lia |]. split; [lia |].
              split; [lia |]. split; [lia |].
              pose proof (IH (m_end m' - pos - 1) (Some c) (S pos)) as Hrest.
              replace (S pos + (m_end m' - pos - 1)) with (m_end m') in Hrest by lia.
              exact Hrest.
           ++ cbn [ordered]. split; [lia |]. split; [lia |].
              pose proof (IH 0 (Some c) (S pos)) as Hrest.
              clear -Hrest Hempty.
              revert Hrest. generalize (scan E ic r 0 (Some c) s (S pos)).
              intros [|m0 l]; [trivial |]. cbn [ordered]. intros (H1 & H2 & H3).
              repeat split; try assumption; lia.
        -- apply Nat.eqb_neq in Hempty.
           cbn [ordered]. split; [lia |]. split; [lia |].
           pose proof (IH (m_end m - pos - 1) (Some c) (S pos)) as Hrest.
           replace (S pos + (m_end m - pos - 1)) with (m_end m) in Hrest by lia.
           exact Hrest.
      * pose proof (IH 0 (Some c) (S pos)) as Hrest.
        revert Hrest. generalize (scan E ic r 0 (Some c) s (S pos)).
        intros [|m0 l]; [trivial |]. cbn [ordered]. intros (H1 & H2 & H3).
        repeat split; try assumption; lia.
    + pose proof (IH skip (Some c) (S pos)) as Hrest.
      replace (S pos + skip) with (pos + S skip) in Hrest by lia. exact Hrest.
Qed.

Lemma substitute_sublist (text : str) from ms :
  ordered from ms -> substitute text from ms [] `sublist_of` drop from text.
Proof.
  revert from.
  induction ms as [|m ms IH]; intros from; cbn [substitute ordered].
  - reflexivity.
  - intros (H1 & H2 & H3). cbn [expand flat_map app].
    unfold slice.
    rewrite <- (take_drop (m_start m - from) (drop from text)) at 2.
    apply sublist_app; [reflexivity |].
    rewrite drop_drop.
    etransitivity; [apply IH, H3 |].
    replace (m_end m) with ((from + (m_start m - from)) + (m_end m - m_start m)) by lia.
    rewrite <- drop_drop. apply sublist_drop.
Qed.

(** Deleting the matches of a pattern leaves characters of the text, in
    their order. *)
Lemma re_sub_delete_sublist r (text : str) :
  re_sub E ic r [] text `sublist_of` text.
Proof.
  unfold re_sub, re_finditer.
  apply (substitute_sublist text 0). apply (scan_ordered r 0 None text 0).
Qed.
End MatchOrder.

(** * The segments of a message *)

Section Segments.
Variable E : externals.

Lemma strip_by_sublist p (s : str) : strip_by p s `sublist_of` s.
Proof.
  unfold strip_by.
  transitivity (lstrip_by p s).
  - destruct (rstrip_by_prefix p (lstrip_by p s)) as [k Hk].
    rewrite Hk at 2. now apply sublist_inserts_r.
  - destruct (lstrip_by_suffix p s) as [k Hk].
    rewrite Hk at 2. now apply sublist_inserts_l.
Qed.

Lemma slice_sublist a b (s : str) : slice a b s `sublist_of` s.
Proof.
  unfold slice. etransitivity; [apply sublist_take | apply sublist_drop].
Qed.

Lemma strip_metadata_sublist (text : str) :
  Parser._strip_metadata E text `sublist_of` text.
Proof.
  unfold Parser._strip_metadata, strip, strip_chars.
  repeat first
    [ reflexivity
    | (etransitivity; [apply strip_by_sublist |])
    | (etransitivity; [apply re_sub_delete_sublist |]) ].
Qed.

Lemma segments_between_sublist (line : str) matches :
  Forall (fun segment => segment `sublist_of` line)
    (Parser.segments_between line matches).
Proof.
  induction matches as [|m rest IH]; [constructor |].
  cbn [Parser.segments_between]. apply Forall_app. split; [|exact IH].
  destruct (Parser.nonempty _); [|constructor].
  constructor; [|constructor].
  unfold strip_chars. etransitivity; [apply strip_by_sublist | apply slice_sublist].
Qed.

Lemma splitlines_aux_no_break cur s :
  Forall (fun c => is_linebreak c = false) cur ->
  Forall (Forall (fun c => is_linebreak c = false)) (splitlines_aux cur s).
Proof.
  revert cur.
  induction s as [s IH] using (induction_ltof1 _ (@length N)).
  unfold ltof in IH. intros cur Hcur.
  destruct s as [|c s']; simpl.
  - destruct cur; [constructor |].
    constructor; [now apply Forall_rev | constructor].
  - destruct (is_linebreak c) eqn:Hc.
    + destruct s' as [|d s''].
      * constructor; [now apply Forall_rev | constructor].
      * destruct ((c =? 13)%N && (d =? 10)%N).
        -- constructor; [now apply Forall_rev |].
           apply IH; [simpl; lia | constructor].
        -- constructor; [now apply Forall_rev |].
           apply IH; [simpl; lia | constructor].
    + apply IH; [simpl; lia | now constructor].
Qed.

Lemma sublist_Forall {A} (P : A -> Prop) (l k : list A) :
  l `sublist_of` k -> Forall P k -> Forall P l.
Proof.
  induction 1 as [|x l k _ IH|x l k _ IH]; intros Hk.
  - constructor.
  - inversion Hk; subst. constructor; auto.
  - inversion Hk; subst. auto.
Qed.

(** What a segment is made of. *)
Definition piece_of_a_line (text segment : str) : Prop :=
  (exists line, In line (splitlines text) /\ segment `sublist_of` line)
  /\ Forall (fun c => is_linebreak c = false) segment.

Lemma split_segments_pieces text :
  Forall (piece_of_a_line text) (Parser._split_segments E text).
Proof.
  pose proof (splitlines_aux_no_break [] text (List.Forall_nil _)) as Hbreaks.
  fold (splitlines text) in Hbreaks. rewrite List.Forall_forall in Hbreaks.
  assert (Hpiece : forall line segment,
            In line (splitlines text) -> segment `sublist_of` line ->
            piece_of_a_line text segment).
  { intros line segment Hline Hsub. split; [eauto |].
    eapply sublist_Forall; [exact Hsub | now apply Hbreaks]. }
  unfold Parser._split_segments.
  apply List.Forall_forall. intros segment Hin.
  apply in_flat_map in Hin as (raw_line & Hraw & Hin).
  apply in_map_iff in Hraw as (line & <- & Hline).
  apply list_elem_of_In, list_elem_of_filter in Hline as [_ Hline].
  apply list_elem_of_In in Hline.
  assert (Hmeta : Parser._strip_metadata E (strip line) `sublist_of` line)
    by (etransitivity; [apply strip_metadata_sublist | apply strip_by_sublist]).
  destruct (negb _ || _); [contradiction |].
  destruct (re_finditer E true Parser._ITEM_START_RE _) as [|m ms] eqn:Hms.
  - destruct Hin as [<- | []].
    apply (Hpiece line); [exact Hline |].
    unfold strip_chars. etransitivity; [apply strip_by_sublist | exact Hmeta].
  - pose proof (segments_between_sublist
                  (Parser._strip_metadata E (strip line)) (m :: ms)) as Hall.
    rewrite List.Forall_forall in Hall.
    apply (Hpiece line); [exact Hline |].
    etransitivity; [now apply Hall | exact Hmeta].
Qed.

(** X20. The parser invents no text. The raw text of every item it returns is
    made of characters of one line of the message (after the cut of the
    delivery context), in their order, and holds no line break; what the
    cut keeps is made of characters of the message, in their order. *)
Theorem raw_text_comes_from_one_line text items :
  Parser.parse_order_text E text = Ok items ->
  Forall (fun item => piece_of_a_line (Parser._cut_context E text) (raw item)) items
  /\ Parser._cut_context E text `sublist_of` text.
Proof.
  intros H. split.
  - assert (Hsegs : Forall2 (fun item segment => well_formed segment item) items
                      (Parser._split_segments E (Parser._cut_context E text))).
    { unfold Parser.parse_order_text in H. destruct text as [|c text].
      - injection H as <-. vm_compute. constructor.
      - now apply parse_segments_well_formed in H. }
    pose proof (split_segments_pieces (Parser._cut_context E text)) as Hpieces.
    clear H. induction Hsegs as [|item segment items segments [Hraw _] _ IH];
      [constructor |].
    inversion Hpieces as [|? ? [(line & Hline & Hsub) Hbreak] Hrest]; subst.
    constructor; [|now apply IH].
    rewrite Hraw. split.
    + exists line. split; [exact Hline |].
      etransitivity; [apply strip_by_sublist | exact Hsub].
    + eapply sublist_Forall; [apply strip_by_sublist | exact Hbreak].
  - unfold Parser._cut_context.
    destruct (contains _ _); [reflexivity |].
    destruct (re_search E true Parser._CUTOFF_RE text); [|reflexivity].
    etransitivity; [apply strip_by_sublist | apply sublist_take].
Qed.
End Segments.

(** * What the resolver hands to the matcher *)

Section ResolvedText.
Variable E : externals.

Definition normalized_charb (c : N) : bool :=
  (c <? 0x80)%N && negb (in_range 0x41 0x5A c)
  && (negb (is_space c) || (c =? 0x20)%N).

Lemma normalized_charb_spec c : normalized_charb c = true -> normalized_char c.
Proof.
  unfold normalized_charb, normalized_char. intros H.
  apply andb_true_iff in H as [H Hsp]. apply andb_true_iff in H as [Hlt Hup].
  apply N.ltb_lt in Hlt. apply negb_true_iff in Hup.
  split; [exact Hlt |]. split; [exact Hup |].
  intros Hs. rewrite Hs in Hsp. simpl in Hsp. now apply N.eqb_eq.
Qed.

Lemma normalized_literal (s : str) :
  forallb normalized_charb s = true -> Forall normalized_char s.
Proof.
  intros H. apply List.Forall_forall. intros c Hc.
  apply normalized_charb_spec. rewrite forallb_forall in H. now apply H.
Qed.

Section Chars.
Variable P : N -> Prop.

Definition tpl_chars (x : tpl) : Prop :=
  match x with
  | TLit s => Forall P s
  | TGroup _ => True
  end.

Lemma substitute_chars (text : str) from ms t :
  Forall P text -> Forall tpl_chars t -> Forall P (substitute text from ms t).
Proof.
  intros Htext Ht. revert from.
  induction ms as [|m ms IH]; intros from; cbn [substitute].
  - now apply Forall_drop.
  - apply Forall_app. split; [unfold slice; now apply Forall_take, Forall_drop |].
    apply Forall_app. split; [|apply IH].
    unfold expand. clear IH. induction Ht as [|x t Hx _ IHt]; [constructor |].
    cbn [flat_map]. apply Forall_app. split; [|exact IHt].
    destruct x as [s|g]; [exact Hx |].
    unfold group. destruct (m_caps m !! g) as [[a b]|]; [|constructor].
    unfold slice. now apply Forall_take, Forall_drop.
Qed.

Lemma re_sub_chars ic r t (text : str) :
  Forall tpl_chars t -> Forall P text -> Forall P (re_sub E ic r t text).
Proof. intros Ht Htext. now apply substitute_chars. Qed.

Lemma replace_aux_chars old new skip (s : str) :
  Forall P new -> Forall P s -> Forall P (replace_aux old new skip s).
Proof.
  intros Hnew Hs. revert skip.
  induction Hs as [|c s Hc Hs IH]; intros skip.
  - destruct skip; constructor.
  - destruct skip as [|skip]; cbn [replace_aux]; [|apply IH].
    destruct (prefix_b old (c :: s)).
    + apply Forall_app. split; [exact Hnew | apply IH].
    + constructor; [exact Hc | apply IH].
Qed.

Lemma replace_chars old new (s : str) :
  Forall P new -> Forall P s -> Forall P (replace old new s).
Proof.
  intros Hnew Hs. unfold replace. destruct old; [exact Hs |].
  now apply replace_aux_chars.
Qed.

Lemma join_chars sep (parts : list str) :
  Forall P sep -> Forall (Forall P) parts -> Forall P (join sep parts).
Proof.
  intros Hsep. induction 1 as [|p parts Hp Hparts IH]; [constructor |].
  cbn [join]. destruct parts as [|q parts]; [exact Hp |].
  apply Forall_app. split; [exact Hp |].
  apply Forall_app. split; [exact Hsep | exact IH].
Qed.
End Chars.

Lemma normalize_text_normalized text :
  Forall normalized_char (Text.normalize_text E text).
Proof.
  unfold Text.normalize_text. destruct text as [|c text]; [constructor |].
  cbv zeta. unfold strip_chars. apply strip_by_chars.
  apply join_space_chars. unfold split_ws.
  apply split_ws_aux_words; [constructor |].
  apply lower_ascii, unidecode_ascii.
Qed.

Ltac normalized :=
  repeat lazymatch goal with
    | H : Forall normalized_char ?s |- Forall normalized_char ?s => exact H
    | H : Forall (Forall normalized_char) ?l |- Forall (Forall normalized_char) ?l =>
        exact H
    | |- Forall normalized_char (Text.normalize_text _ _) =>
        apply normalize_text_normalized
    | |- Forall _ (strip _) => unfold strip
    | |- Forall _ (strip_chars _ _) => unfold strip_chars
    | |- Forall _ (Resolver._compact_spaces _ _) => unfold Resolver._compact_spaces
    | |- Forall _ (strip_by _ _) => apply strip_by_chars
    | |- Forall _ (re_sub _ _ _ _ _) => apply re_sub_chars
    | |- Forall _ (replace _ _ _) => apply replace_chars
    | |- Forall _ (join _ _) => apply join_chars
    | |- Forall _ (_ ++ _) => apply Forall_app; split
    | |- Forall _ (if ?c then _ else _) => destruct c
    | |- Forall (tpl_chars _) [] => apply List.Forall_nil
    | |- Forall (tpl_chars _) (TGroup _ :: _) => apply List.Forall_cons; [exact I |]
    | |- Forall (tpl_chars _) (TLit _ :: _) =>
        apply List.Forall_cons; [cbn [tpl_chars] |]
    | |- Forall normalized_char (py _) =>
        apply normalized_literal; vm_compute; reflexivity
    | |- Forall normalized_char [] => apply List.Forall_nil
    end.

(** One binding of [_resolve_item] at a time: a text that is bound is
    replaced by a variable known to be normalized, anything else by its
    value; a test is split into its two cases. *)
Ltac resolve_step :=
  lazymatch goal with
  | |- context [match (if ?c then _ else _) with pair _ _ => _ end] =>
      destruct c; cbv beta iota
  | |- context C [let x := ?v in @?f x] =>
      first
        [ let H := fresh "Hbase" in
          assert (H : Forall normalized_char v) by normalized;
          let b := fresh "base" in
          generalize dependent v; intros b H;
          lazymatch goal with
          | |- context D [let x := b in @?g x] =>
              let t := eval cbv beta in (g b) in
              let G := context D [t] in change G
          end
        | let t := eval cbv beta in (f v) in
          let G := context C [t] in change G ]
  end.

(** X21. The texts a resolved item gives the matcher are normalized: its match
    text, its additions and its removals are lower-case Basic Latin whose
    only white space is the space, whatever the customer wrote, and the
    match text has no white space at either end. *)
Theorem resolved_item_is_normalized it :
  Forall normalized_char (match_text (Resolver.resolve_fields E it))
  /\ strip (match_text (Resolver.resolve_fields E it))
     = match_text (Resolver.resolve_fields E it)
  /\ Forall (Forall normalized_char)
       (ParsedItem.additions (Resolver.resolve_fields E it))
  /\ Forall (Forall normalized_char) (removals (Resolver.resolve_fields E it)).
Proof.
  assert (Hadds : Forall (Forall normalized_char)
                    (map (Text.normalize_text E)
                       (filter (fun a => Parser.nonempty a = true)
                          (ParsedItem.additions it)))).
  { apply Forall_map, Forall_forall. intros a _. apply normalize_text_normalized. }
  split; [|split; [|split]].
  - unfold Resolver.resolve_fields.
    repeat resolve_step;
      cbn [match_text set_match_text set_additions set_removals set_size_hint
           ParsedItem.additions];
      normalized.
  - unfold Resolver.resolve_fields.
    repeat resolve_step;
      cbn [match_text set_match_text]; unfold Resolver._compact_spaces;
      apply strip_idem.
  - destruct (resolve_fields_lists E it) as (_ & _ & _ & [-> | ->]);
      [exact Hadds | constructor].
  - destruct (resolve_fields_lists E it) as (extra & _ & -> & _).
    apply Forall_forall. intros x Hx.
    apply (proj1 (proj2 (dedupe_NoDup _) x)) in Hx.
    unfold Resolver.normalize_removals in Hx.
    apply list_elem_of_fmap in Hx as (removal & -> & _).
    normalized.
Qed.
End ResolvedText.

(** * The further properties on the sample menu *)

Lemma every_line_is_accounted_for_witness :
  exists r,
    Matcher.match_items sample_env [Sample.two_burgers] Sample.menu (py "") = Ok r
    /\ map CartItem.quantidade (InterpretedOrder.items r)
       = map quantity
           (filter
              (fun it =>
                 matched sample_env (fst (Matcher._build_menu_index Sample.menu)) it
                 = true)
              [Sample.two_burgers])
    /\ map CartPendency.texto_original (filter line_level (pendencies r))
       = map raw
           (filter
              (fun it =>
                 matched sample_env (fst (Matcher._build_menu_index Sample.menu)) it
                 = false)
              [Sample.two_burgers])
    /\ length (InterpretedOrder.items r) + length (filter line_level (pendencies r))
       = length [Sample.two_burgers].
Proof.
  eexists. split; [vm_compute; reflexivity |].
  apply (every_line_is_accounted_for sample_env [Sample.two_burgers] Sample.menu
           (py "")).
  vm_compute. reflexivity.
Defined.

Lemma cart_lines_come_from_menu_witness :
  exists r,
    Matcher.match_items sample_env [Sample.two_burgers] Sample.menu (py "") = Ok r
    /\ map CartItem.nome (InterpretedOrder.items r) = [py "X Burguer"]
    /\ Forall
         (fun line =>
            exists item product,
              In item [Sample.two_burgers]
              /\ is_additional_only item = false
              /\ In product Sample.menu
              /\ MenuEntry.item_type product = py "product"
              /\ CartItem.pdv line = MenuEntry.pdv product
              /\ CartItem.nome line = MenuEntry.nome_original product
              /\ CartItem.preco_unitario line
                 = Matcher._to_decimal (MenuEntry.price product)
              /\ CartItem.quantidade line = quantity item
              /\ CartItem.observacoes line = Matcher._build_observacoes item)
         (InterpretedOrder.items r).
Proof.
  eexists. split; [vm_compute; reflexivity |].
  split; [reflexivity |].
  apply (cart_lines_come_from_menu sample_env [Sample.two_burgers] Sample.menu
           (py "")).
  vm_compute. reflexivity.
Defined.


Lemma menu_without_products_witness :
  Forall (fun e => MenuEntry.item_type e <> py "product") [Sample.bacon]
  /\ Matcher.match_items sample_env [Sample.two_burgers] [Sample.bacon] (py "")
     = Ok (InterpretedOrder.mk []
             (map (unmatched_pendency) [Sample.two_burgers]) (py "")
             (Matcher._compute_confidence
                (map (unmatched_pendency) [Sample.two_burgers]))).
Proof.
  assert (H : Forall (fun e => MenuEntry.item_type e <> py "product") [Sample.bacon])
    by (constructor; [vm_compute; discriminate | constructor]).
  split; [exact H |].
  apply (menu_without_products sample_env [Sample.two_burgers] [Sample.bacon] (py "") H).
Defined.

Lemma suggestions_come_from_menu_witness :
  exists r,
    Matcher.match_items sample_env [Sample.two_burgers] Sample.menu (py "") = Ok r
    /\ length (pendencies r) = 1
    /\ Forall (offered sample_env Sample.menu) (pendencies r).
Proof.
  eexists. split; [vm_compute; reflexivity |].
  split; [reflexivity |].
  apply (suggestions_come_from_menu sample_env [Sample.two_burgers] Sample.menu
           (py "")).
  vm_compute. reflexivity.
Defined.

Lemma find_best_match_is_best_witness :
  exists score,
    Text.find_best_match sample_env (py "x burguer") [py "Coca Cola"; py "X Burguer"]
      (6 # 10)
    = (Some (py "X Burguer"), score)
    /\ In (py "X Burguer") [py "Coca Cola"; py "X Burguer"]
    /\ score = score_of sample_env (py "x burguer") (py "X Burguer")
    /\ (6 # 10 <= score)%Q
    /\ forall c', In c' [py "Coca Cola"; py "X Burguer"] ->
                  (score_of sample_env (py "x burguer") c' <= score)%Q.
Proof.
  eexists. split; [vm_compute; reflexivity |].
  apply (find_best_match_is_best sample_env (py "x burguer")
           [py "Coca Cola"; py "X Burguer"] (6 # 10)).
  vm_compute. reflexivity.
Defined.

Lemma plain_text_is_not_reformatted_witness :
  Text.clean_whatsapp_formatting sample_env (py "2 x burguer") = py "2 x burguer"
  /\ Text.clean_whatsapp_formatting sample_env (py "2 *x* burguer") = py "2 x burguer".
Proof.
  split; [|vm_compute; reflexivity].
  apply (plain_text_is_not_reformatted sample_env (py "2 x burguer"));
    vm_compute; intuition discriminate.
Defined.

Lemma parsed_items_are_well_formed_witness :
  Parser.parse_order_text sample_env (py "2 x burguer com bacon e abacaxi")
  = Ok [Sample.two_burgers]
  /\ Forall2 (fun item segment => well_formed segment item)
       [Sample.two_burgers]
       (Parser._split_segments sample_env
          (Parser._cut_context sample_env (py "2 x burguer com bacon e abacaxi")))
  /\ map raw [Sample.two_burgers]
     = map strip
         (Parser._split_segments sample_env
            (Parser._cut_context sample_env (py "2 x burguer com bacon e abacaxi"))).
Proof.
  assert (H : Parser.parse_order_text sample_env (py "2 x burguer com bacon e abacaxi")
              = Ok [Sample.two_burgers]) by (vm_compute; reflexivity).
  split; [exact H |].
  apply (parsed_items_are_well_formed sample_env
           (py "2 x burguer com bacon e abacaxi") [Sample.two_burgers] H).
Defined.

Lemma white_space_gives_empty_order_witness :
  Forall (fun c => is_space c = true) [0x20; 0x09; 0x0A; 0x20]%N
  /\ Parser.parse_order_text sample_env [0x20; 0x09; 0x0A; 0x20]%N = Ok []
  /\ exists r,
       Pipeline.interpret sample_env [0x20; 0x09; 0x0A; 0x20]%N Sample.menu = Ok r
       /\ InterpretedOrder.items r = []
       /\ pendencies r = []
       /\ (confidence r == 1)%Q
       /\ raw_text r = [0x20; 0x09; 0x0A; 0x20]%N.
Proof.
  assert (H : Forall (fun c => is_space c = true) [0x20; 0x09; 0x0A; 0x20]%N)
    by (repeat constructor).
  split; [exact H |].
  apply (white_space_gives_empty_order sample_env [0x20; 0x09; 0x0A; 0x20]%N
           Sample.menu H).
Defined.

Lemma every_segment_is_answered_witness :
  exists r,
    Pipeline.interpret sample_env (py "2 x burguer com bacon e abacaxi") Sample.menu
    = Ok r
    /\ length (InterpretedOrder.items r) + length (filter line_level (pendencies r))
       = length
           (Parser._split_segments sample_env
              (Parser._cut_context sample_env (py "2 x burguer com bacon e abacaxi")))
    /\ Forall
         (fun p =>
            In (CartPendency.texto_original p)
              (map strip
                 (Parser._split_segments sample_env
                    (Parser._cut_context sample_env
                       (py "2 x burguer com bacon e abacaxi")))))
         (filter line_level (pendencies r))
    /\ raw_text r = py "2 x burguer com bacon e abacaxi".
Proof.
  eexists. split; [vm_compute; reflexivity |].
  apply (every_segment_is_answered sample_env
           (py "2 x burguer com bacon e abacaxi") Sample.menu).
  vm_compute. reflexivity.
Defined.

Lemma raw_text_comes_from_one_line_witness :
  Parser.parse_order_text sample_env (py "2 x burguer com bacon e abacaxi")
  = Ok [Sample.two_burgers]
  /\ Forall
       (fun item =>
          piece_of_a_line
            (Parser._cut_context sample_env (py "2 x burguer com bacon e abacaxi"))
            (raw item))
       [Sample.two_burgers]
  /\ Parser._cut_context sample_env (py "2 x burguer com bacon e abacaxi")
     `sublist_of` py "2 x burguer com bacon e abacaxi".
Proof.
  assert (H : Parser.parse_order_text sample_env (py "2 x burguer com bacon e abacaxi")
              = Ok [Sample.two_burgers]) by (vm_compute; reflexivity).
  split; [exact H |].
  apply (raw_text_comes_from_one_line sample_env
           (py "2 x burguer com bacon e abacaxi") [Sample.two_burgers] H).
Defined.
